(** * ECG scanpath pushdown automaton and scanpath completion

    A shallow embedding of [pda.py] (the [PushdownAutomaton] class), of
    [completion.py] (the [ScanpathCompleter] class), of
    [task_inference.py] (the [TaskInferencer] class), of [aoi_mapper.py]
    (the [AOIMapper] class) and of the pipeline of [main.py], followed by
    the properties of the engine, of the completion algorithm and of the
    stages around them.

    Python strings are [string]; the engine's stack is a [list string] in
    the order of the Python list (bottom first, top last); the completion
    rule table, a Python dict, is a [gmap string CompletionRule]; the set of
    accepting states is a [gset string]; the table of areas, a dict that
    is read in its order, is an association list.  Methods that mutate the
    engine take the configuration and return the new one. *)

From Stdlib Require Import String Ascii Bool Arith Lia QArith Lqa.
From stdpp Require Import gmap strings list.
Import ListNotations.

(** ** The few Python string operations the engine uses *)

Module PyStr.

(** [s.split(sep)] for a one-character separator: never empty, an empty
    string gives one empty part. *)
Fixpoint split (sep : ascii) (s : string) : list string :=
  match s with
  | EmptyString => [EmptyString]
  | String ch rest =>
      if Ascii.eqb ch sep then EmptyString :: split sep rest
      else match split sep rest with
           | [] => [String ch EmptyString]
           | part :: parts => String ch part :: parts
           end
  end.

(** [s.startswith(p)] *)
Definition startswith (s p : string) : bool := String.prefix p s.

(** [sub in s] on strings: [sub] occurs somewhere in [s]. *)
Fixpoint contains (sub s : string) : bool :=
  String.prefix sub s ||
  match s with
  | EmptyString => false
  | String _ rest => contains sub rest
  end.

(** [x in l] on a list of strings. *)
Definition mem (x : string) (l : list string) : bool :=
  existsb (String.eqb x) l.

(** [l1 == l2] on lists of strings. *)
Fixpoint list_eqb (l1 l2 : list string) : bool :=
  match l1, l2 with
  | [], [] => true
  | x :: l1', y :: l2' => String.eqb x y && list_eqb l1' l2'
  | _, _ => false
  end.

End PyStr.

(** ** pda.py *)

Module Pda.

(** [PDATransition]: the operation is the string the source stores
    ('push:X', 'pop', 'noop', ...), decoded when the transition runs. *)
Record PDATransition := mkTransition {
  from_state : string;
  input_symbol : string;
  stack_top : string;
  to_state : string;
  stack_operation : string
}.

(** One entry of [self.history]. *)
Record ExecutionStep := mkStep {
  h_state : string;
  h_input : string;
  h_stack_before : list string;
  h_transition : PDATransition
}.

(** The mutable fields of a [PushdownAutomaton]. *)
Record Configuration := mkConfig {
  current_state : string;
  stack : list string;
  history : list ExecutionStep
}.

Definition initial_state : string := "qRate".
Definition accepting_states : gset string := {[ "qEnd"%string ]}.

Definition _define_transitions : list PDATransition := [
  mkTransition "qRate" "R" "Z0" "qRhythm" "push:R";
  mkTransition "qRate" "Rh" "Z0" "qRhythm" "noop";
  mkTransition "qRhythm" "Rh" "R" "qAxis" "pop";
  mkTransition "qRhythm" "Rh" "Z0" "qAxis" "noop";
  mkTransition "qAxis" "Ax" "Z0" "qMorph" "push:QRS";
  mkTransition "qAxis" "Ax" "R" "qMorph" "push:QRS";
  mkTransition "qAxis" "Q" "Z0" "qMorph" "push:QRS";
  mkTransition "qAxis" "Detail" "Z0" "qDetail" "push:QRS:push:ExpectRepol";
  mkTransition "qAxis" "ST" "Z0" "qST" "push:QRS:push:ST";
  mkTransition "qAxis" "T" "Z0" "qEnd" "push:QRS";
  mkTransition "qMorph" "Q" "QRS" "qMorph" "noop";
  mkTransition "qMorph" "Detail" "QRS" "qDetail" "push:ExpectRepol";
  mkTransition "qDetail" "V1" "ExpectRepol" "qDetail" "noop";
  mkTransition "qDetail" "V2" "ExpectRepol" "qDetail" "noop";
  mkTransition "qDetail" "V3" "ExpectRepol" "qDetail" "noop";
  mkTransition "qDetail" "V4" "ExpectRepol" "qDetail" "noop";
  mkTransition "qDetail" "V5" "ExpectRepol" "qDetail" "noop";
  mkTransition "qDetail" "V6" "ExpectRepol" "qDetail" "noop";
  mkTransition "qDetail" "Detail" "ExpectRepol" "qDetail" "noop";
  mkTransition "qMorph" "ST" "QRS" "qST" "push:ST";
  mkTransition "qDetail" "ST" "ExpectRepol" "qST" "pop:push:ST";
  mkTransition "qST" "T" "ST" "qEnd" "pop";
  mkTransition "qST" "QT" "ST" "qEnd" "pop";
  mkTransition "qEnd" "Detail" "QRS" "qDetail" "push:ExpectRepol";
  mkTransition "qEnd" "T" "QRS" "qEnd" "pop";
  mkTransition "qEnd" "ST" "QRS" "qST" "push:ST";
  mkTransition "qEnd" "Q" "QRS" "qEnd" "pop";
  mkTransition "qDetail" "T" "QRS" "qEnd" "pop"
].

(** [self.transitions], fixed by [__init__]. *)
Definition transitions : list PDATransition := _define_transitions.

(** The state of a freshly constructed engine. *)
Definition init : Configuration :=
  mkConfig initial_state ["Z0"%string] [].

Definition reset (c : Configuration) : Configuration :=
  mkConfig initial_state ["Z0"%string] [].

(** The test of the loop of [_find_transition]. *)
Definition matches (state input stack_top' : string)
    (trans : PDATransition) : bool :=
  String.eqb (from_state trans) state
  && String.eqb (input_symbol trans) input
  && String.eqb (stack_top trans) stack_top'.

Definition _find_transition (c : Configuration) (input stack_top' : string)
    : option PDATransition :=
  List.find (matches (current_state c) input stack_top') transitions.

(** [self.stack.pop()] under [if self.stack]. *)
Definition pop (s : list string) : list string := removelast s.

(** The symbols appended by the 'push:' branch: the parts after the
    first that are neither empty nor the word 'push'. *)
Definition pushed (op : string) : list string :=
  List.filter
    (fun part => negb (String.eqb part "") && negb (String.eqb part "push"))
    (List.tl (PyStr.split ":" op)).

Definition apply_operation (op : string) (s : list string) : list string :=
  if String.eqb op "pop" then pop s
  else if String.eqb op "noop" then s
  else if PyStr.contains "pop:push" op then
    pop s ++ [List.last (PyStr.split ":" op) EmptyString]
  else if PyStr.startswith op "push:" then s ++ pushed op
  else s.

Definition _execute_transition (c : Configuration)
    (transition : PDATransition) (input : string) : Configuration :=
  mkConfig (to_state transition)
           (apply_operation (stack_operation transition) (stack c))
           (history c ++ [mkStep (current_state c) input (stack c) transition]).

(** [step]: the returned boolean paired with the engine afterwards.
    [last] is [None] on the empty stack, the early [return False]. *)
Definition step (c : Configuration) (input : string)
    : bool * Configuration :=
  match last (stack c) with
  | None => (false, c)
  | Some stack_top' =>
      match _find_transition c input stack_top' with
      | None => (false, c)
      | Some transition => (true, _execute_transition c transition input)
      end
  end.

Definition accepts (c : Configuration) : bool :=
  bool_decide (current_state c ∈ accepting_states)
  && PyStr.list_eqb (stack c) ["Z0"%string].

(** The [for] loop of [process_sequence], after the reset. *)
Fixpoint process_loop (c : Configuration) (input_sequence : list string)
    : bool * Configuration :=
  match input_sequence with
  | [] => (accepts c, c)
  | symbol :: rest =>
      let (ok, c') := step c symbol in
      if ok then process_loop c' rest else (false, c')
  end.

Definition process_sequence (c : Configuration)
    (input_sequence : list string) : bool * Configuration :=
  process_loop (reset c) input_sequence.

Definition is_incomplete (c : Configuration) : bool :=
  (1 <? length (stack c))
  || negb (bool_decide (current_state c ∈ accepting_states)).

Definition get_missing_tasks (c : Configuration) : list string :=
  let missing := [] in
  let missing :=
    if PyStr.mem "ExpectRepol" (stack c)
    then missing ++ ["ST"%string; "T"%string] else missing in
  let missing :=
    if PyStr.mem "QRS" (stack c)
    then missing ++ ["Q"%string; "ST"%string; "T"%string] else missing in
  let missing :=
    if PyStr.mem "ST" (stack c)
    then missing ++ ["T"%string] else missing in
  missing.

End Pda.

(** ** completion.py *)

Module Completion.
Import Pda.

(** One value of the [completion_rules] dict. *)
Record CompletionRule := mkRule {
  required : list string;
  optional : list string;
  leads : list string
}.

Definition _define_completion_rules : gmap string CompletionRule :=
  <[ "ExpectRepol"%string :=
       mkRule ["ST"; "T"]%string ["QT"%string] ["V3"; "V4"; "V5"]%string ]>
  (<[ "QRS"%string :=
       mkRule ["Q"; "ST"; "T"]%string ["Detail"%string]
              ["V1"; "V2"; "V3"]%string ]>
  (<[ "ST"%string := mkRule ["T"%string] ["QT"%string] [] ]>
  (<[ "R"%string := mkRule ["Rh"; "Ax"]%string [] ["II"%string] ]> ∅))).

Definition completion_rules : gmap string CompletionRule :=
  _define_completion_rules.

Definition max_iterations : nat := 50.

(** The local variables of [_generate_completion], with the engine the
    loop drives. *)
Record LoopVars := mkVars {
  pda : Configuration;
  completion : list string;
  iterations : nat
}.

(** How the [while] loop was left: its condition failed, or the [break]
    of the unknown-symbol branch. *)
Inductive LoopExit := ConditionFalse | UnknownSymbol.

(** The inner [for task in rule['required']] loop: each task is appended
    before it is tried, and the first failing step leaves the loop. *)
Fixpoint add_required (c : Configuration) (completion : list string)
    (tasks : list string) : Configuration * list string :=
  match tasks with
  | [] => (c, completion)
  | task :: rest =>
      let completion := completion ++ [task] in
      let (success, c') := step c task in
      if success then add_required c' completion rest
      else (c', completion)
  end.

(** The [while] loop.  [fuel] bounds the unfolding; [None] is an
    exhausted bound or an index error on [stack[-1]]. *)
Fixpoint while_loop (fuel : nat) (v : LoopVars)
    : option (LoopVars * LoopExit) :=
  if (1 <? length (stack (pda v))) && (iterations v <? max_iterations)
  then
    match fuel with
    | O => None
    | S fuel' =>
        let iterations := S (iterations v) in
        match last (stack (pda v)) with
        | None => None
        | Some stack_top' =>
            match completion_rules !! stack_top' with
            | Some rule =>
                let (c', completion) :=
                  add_required (pda v) (completion v) (required rule) in
                while_loop fuel' (mkVars c' completion iterations)
            | None =>
                Some (mkVars (pda v) (completion v) iterations,
                      UnknownSymbol)
            end
        end
    end
  else Some (v, ConditionFalse).

(** The loop of [_generate_completion] from its initial variables. *)
Definition synthesis (c : Configuration) : option (LoopVars * LoopExit) :=
  while_loop max_iterations (mkVars c [] 0).

(** The returned completion with the engine afterwards. *)
Definition _generate_completion (c : Configuration)
    : option (list string * Configuration) :=
  match synthesis c with
  | Some (v, _) => Some (completion v, pda v)
  | None => None
  end.

(** The replay of [complete_scanpath]: the result of [step] is dropped. *)
Fixpoint replay (c : Configuration) (partial_sequence : list string)
    : Configuration :=
  match partial_sequence with
  | [] => c
  | symbol :: rest => replay (snd (step c symbol)) rest
  end.

Definition complete_scanpath (c : Configuration)
    (partial_sequence : list string)
    : option (list string * Configuration) :=
  let c := replay (reset c) partial_sequence in
  if accepts c then Some (partial_sequence, c)
  else
    match _generate_completion c with
    | Some (completion, c') => Some (partial_sequence ++ completion, c')
    | None => None
    end.

Definition validate_completion (c : Configuration)
    (completed_sequence : list string) : bool * Configuration :=
  process_sequence (reset c) completed_sequence.

End Completion.

(** ** config.py *)

Module Config.

Definition LEAD_ALPHABET : list string :=
  ["I"; "II"; "III"; "aVR"; "aVL"; "aVF";
   "V1"; "V2"; "V3"; "V4"; "V5"; "V6"; "RHYTHM"]%string.

Definition TASK_ALPHABET : list string :=
  ["R"; "Rh"; "Ax"; "P"; "PR"; "Q"; "ST"; "T"; "QT"; "Detail"]%string.

(** The keys of [PDA_STATES], in the order of the dict. *)
Definition PDA_STATES : list string :=
  ["qRate"; "qRhythm"; "qAxis"; "qMorph"; "qST"; "qDetail"; "qEnd"]%string.

Definition STACK_ALPHABET : list string :=
  ["R"; "Rh"; "Ax"; "QRS"; "ST"; "ExpectRepol"; "Z0"]%string.

End Config.

(** ** task_inference.py *)

Module TaskInference.

Definition precordial : list string :=
  ["V1"; "V2"; "V3"; "V4"; "V5"; "V6"]%string.

(** The loop of [_count_consecutive_precordial] over the leads from the
    start index on: it counts until the first lead that is not
    precordial. *)
Fixpoint count_run (leads : list string) : nat :=
  match leads with
  | [] => 0
  | lead :: rest =>
      if PyStr.mem lead precordial then S (count_run rest) else 0
  end.

Definition _count_consecutive_precordial (sequence : list string)
    (start_idx : nat) : nat :=
  count_run (drop start_idx sequence).

Definition _is_after_qrs (task_sequence : list string) : bool :=
  PyStr.mem "Q" task_sequence || PyStr.mem "Detail" task_sequence.

(** [if x not in task_sequence: task_sequence.append(x)] *)
Definition add_once (x : string) (task_sequence : list string)
    : list string :=
  if PyStr.mem x task_sequence then task_sequence else task_sequence ++ [x].

(** [sequence[i] == name], for an index in range. *)
Definition lead_is (sequence : list string) (i : nat) (name : string)
    : bool :=
  match sequence !! i with
  | Some lead => String.eqb lead name
  | None => false
  end.

(** One round of the [while] loop of [infer_tasks] at index [i]. *)
Definition infer_step (lead_sequence : list string)
    (task_sequence : list string) (i : nat) : list string :=
  match lead_sequence !! i with
  | None => task_sequence
  | Some lead =>
      if PyStr.mem lead ["II"; "RHYTHM"]%string then
        add_once "Rh" (add_once "R" task_sequence)
      else if (i <? length lead_sequence - 1)
              && ((String.eqb lead "I" && lead_is lead_sequence (i + 1) "aVF")
                  || (String.eqb lead "aVF" && (0 <? i)
                      && lead_is lead_sequence (i - 1) "I")) then
        add_once "Ax" task_sequence
      else if PyStr.mem lead precordial then
        let task_sequence := add_once "Q" task_sequence in
        let consecutive_v :=
          _count_consecutive_precordial lead_sequence i in
        let task_sequence :=
          if 2 <=? consecutive_v then task_sequence ++ ["Detail"%string]
          else task_sequence in
        if _is_after_qrs task_sequence then
          add_once "T" (add_once "ST" task_sequence)
        else task_sequence
      else task_sequence
  end.

(** [infer_tasks]: every path through the loop body ends in [i += 1], so
    the loop visits the indices 0, 1, ... in order. *)
Definition infer_tasks (lead_sequence : list string) : list string :=
  fold_left (infer_step lead_sequence) (seq 0 (length lead_sequence)) [].

End TaskInference.

(** ** aoi_mapper.py *)

(** Coordinates, durations and timestamps are rationals: the values of
    Python's [int] and the finite values of [float], which Python compares
    exactly.  The code only compares them. *)
Module AoiMapper.

Record Fixation := mkFixation {
  x : Q;
  y : Q;
  duration : Q;
  timestamp : Q
}.

(** [a < b] *)
Definition Qlt_bool (a b : Q) : bool := negb (Qle_bool b a).

(** An area of interest: [(x_min, y_min, x_max, y_max)]. *)
Definition Area : Type := Q * Q * Q * Q.

(** [AOI_COORDINATES] of config.py, in the order of the dict. *)
Definition AOI_COORDINATES : list (string * Area) := [
  ("I"%string,      (50, 100, 250, 200)%Q);
  ("II"%string,     (280, 100, 480, 200)%Q);
  ("III"%string,    (510, 100, 710, 200)%Q);
  ("aVR"%string,    (740, 100, 940, 200)%Q);
  ("aVL"%string,    (970, 100, 1170, 200)%Q);
  ("aVF"%string,    (1200, 100, 1350, 200)%Q);
  ("V1"%string,     (50, 230, 250, 330)%Q);
  ("V2"%string,     (280, 230, 480, 330)%Q);
  ("V3"%string,     (510, 230, 710, 330)%Q);
  ("V4"%string,     (740, 230, 940, 330)%Q);
  ("V5"%string,     (970, 230, 1170, 330)%Q);
  ("V6"%string,     (1200, 230, 1350, 330)%Q);
  ("RHYTHM"%string, (50, 500, 1350, 650)%Q)
].

Definition MIN_FIXATION_DURATION : Q := 100%Q.

(** [AOIMapper.__init__]: [aoi_map or AOI_COORDINATES], where an absent or
    empty map gives the default. *)
Definition AOIMapper (aoi_map : option (list (string * Area)))
    : list (string * Area) :=
  match aoi_map with
  | None | Some [] => AOI_COORDINATES
  | Some m => m
  end.

(** [x_min <= x <= x_max and y_min <= y <= y_max] *)
Definition inside (px py : Q) (area : Area) : bool :=
  let '(x_min, y_min, x_max, y_max) := area in
  Qle_bool x_min px && Qle_bool px x_max
  && Qle_bool y_min py && Qle_bool py y_max.

(** [map_to_aoi]: the first area of the map, in its order, that holds the
    point. *)
Fixpoint map_to_aoi (aoi_map : list (string * Area)) (px py : Q)
    : option string :=
  match aoi_map with
  | [] => None
  | (lead, area) :: rest =>
      if inside px py area then Some lead else map_to_aoi rest px py
  end.

(** [sorted(fixations, key=lambda f: f.timestamp)], a stable sort: a
    fixation goes before the first one that is not earlier than it. *)
Fixpoint insert_by_timestamp (f : Fixation) (l : list Fixation)
    : list Fixation :=
  match l with
  | [] => [f]
  | g :: rest =>
      if Qle_bool (timestamp f) (timestamp g) then f :: g :: rest
      else g :: insert_by_timestamp f rest
  end.

Fixpoint sorted_by_timestamp (fixations : list Fixation) : list Fixation :=
  match fixations with
  | [] => []
  | f :: rest => insert_by_timestamp f (sorted_by_timestamp rest)
  end.

(** The body of the [for] loop of [convert_fixations_to_lead_sequence]. *)
Definition add_fixation (aoi_map : list (string * Area)) (min_duration : Q)
    (lead_sequence : list string) (fixation : Fixation) : list string :=
  if Qlt_bool (duration fixation) min_duration then lead_sequence
  else
    match map_to_aoi aoi_map (x fixation) (y fixation) with
    | None => lead_sequence
    | Some lead =>
        match last lead_sequence with
        | None => lead_sequence ++ [lead]
        | Some previous =>
            if negb (String.eqb previous lead) then lead_sequence ++ [lead]
            else lead_sequence
        end
    end.

Definition convert_fixations_to_lead_sequence
    (aoi_map : list (string * Area)) (fixations : list Fixation)
    (min_duration : Q) : list string :=
  fold_left (add_fixation aoi_map min_duration)
            (sorted_by_timestamp fixations) [].

End AoiMapper.

(** ** main.py *)

Module Main.
Import Pda Completion TaskInference AoiMapper.

(** The engines of an [ECGScanpathAnalyzer]: its own and the one of its
    completer.  The mapper has the default areas and the inferencer has no
    state. *)
Record ECGScanpathAnalyzer := mkAnalyzer {
  analyzer_pda : Configuration;
  completer_pda : Configuration
}.

(** The dict [analyze_fixations] returns. *)
Record Analysis := mkAnalysis {
  lead_sequence : list string;
  task_sequence : list string;
  is_complete : bool;
  missing_tasks : list string;
  completed_sequence : list string;
  pda_history : list ExecutionStep;
  final_state : string;
  final_stack : list string
}.

(** [analyze_fixations]: the returned dict with the analyzer afterwards;
    [None] only if the completer's loop bound were exhausted. *)
Definition analyze_fixations (self : ECGScanpathAnalyzer)
    (fixations : list Fixation) : option (Analysis * ECGScanpathAnalyzer) :=
  let lead_sequence :=
    convert_fixations_to_lead_sequence (AOIMapper None) fixations
      MIN_FIXATION_DURATION in
  let task_sequence := infer_tasks lead_sequence in
  let (accepted, pda) :=
    process_sequence (reset (analyzer_pda self)) task_sequence in
  let is_complete := accepts pda in
  let missing_tasks := get_missing_tasks pda in
  let result completed_sequence :=
    mkAnalysis lead_sequence task_sequence is_complete missing_tasks
               completed_sequence (history pda) (current_state pda)
               (stack pda) in
  if negb is_complete then
    match complete_scanpath (completer_pda self) task_sequence with
    | Some (completed_sequence, completer_pda') =>
        Some (result completed_sequence, mkAnalyzer pda completer_pda')
    | None => None
    end
  else Some (result task_sequence, mkAnalyzer pda (completer_pda self)).

End Main.

Import Pda Completion Config TaskInference AoiMapper.

Local Open Scope string_scope.
Local Open Scope list_scope.

(** ** The configurations the engine can be in *)

(** State and stack of a configuration, the history left out. *)
Definition shape (c : Configuration) : string * list string :=
  (current_state c, stack c).

Definition of_shape (sh : string * list string) : Configuration :=
  mkConfig (fst sh) (snd sh) [].

Definition reachable_shapes : list (string * list string) := [
  ("qRate", ["Z0"]);
  ("qRhythm", ["Z0"; "R"]);
  ("qRhythm", ["Z0"]);
  ("qAxis", ["Z0"]);
  ("qMorph", ["Z0"; "QRS"]);
  ("qDetail", ["Z0"; "QRS"; "ExpectRepol"]);
  ("qST", ["Z0"; "QRS"; "ST"]);
  ("qEnd", ["Z0"; "QRS"]);
  ("qEnd", ["Z0"])
].

Definition shape_eqb (a b : string * list string) : bool :=
  String.eqb (fst a) (fst b) && PyStr.list_eqb (snd a) (snd b).

Definition known_shape (sh : string * list string) : bool :=
  existsb (shape_eqb sh) reachable_shapes.

(** The invariant of the engine: state and stack are one of the nine
    combinations above. *)
Definition Inv (c : Configuration) : Prop := In (shape c) reachable_shapes.

(** Every input symbol some transition reads. *)
Definition input_alphabet : list string := List.map input_symbol transitions.

(** The nine shapes are closed under [step] on every symbol of the
    alphabet, as a check that evaluates. *)
Definition step_closed_check : bool :=
  forallb (fun sh =>
    forallb (fun a => known_shape (shape (snd (step (of_shape sh) a))))
            input_alphabet)
    reachable_shapes.

(** Configurations obtained from [reset] by calls of [step]. *)
Inductive reachable : Configuration -> Prop :=
| reach_reset (c : Configuration) : reachable (reset c)
| reach_step (c : Configuration) (a : string) :
    reachable c -> reachable (snd (step c a)).

(** The spec's reading of [processSequence]: every step of a sequence
    succeeds, from one configuration to another. *)
Inductive all_steps : Configuration -> list string -> Configuration -> Prop :=
| all_steps_nil (c : Configuration) : all_steps c [] c
| all_steps_cons (c c' c'' : Configuration) (a : string) (s : list string) :
    step c a = (true, c') -> all_steps c' s c'' -> all_steps c (a :: s) c''.

(** The spec's reading of [missingTasks]: the three rules in priority
    order, each contributing its list when its symbol is on the stack. *)
Definition missing_rules : list (string * list string) :=
  [("ExpectRepol", ["ST"; "T"]); ("QRS", ["Q"; "ST"; "T"]); ("ST", ["T"])].

Definition missing_by_rules (stk : list string) : list string :=
  flat_map (fun r => if decide (fst r ∈ stk) then snd r else []) missing_rules.

(** The two outcomes the completion is said to have: the returned sequence
    validates, or the loop stopped on an unknown stack symbol before the
    cap. *)
Definition validated_or_unknown_abort (partial : list string) : Prop :=
  (exists out c', complete_scanpath init partial = Some (out, c')
                  /\ fst (validate_completion c' out) = true)
  \/ (exists v, synthesis (replay (reset init) partial)
                = Some (v, UnknownSymbol)
                /\ iterations v < max_iterations).

(** A check on every step from a known shape on a symbol of the
    alphabet: shape before, symbol, result and shape after. *)
Definition for_all_steps
    (P : string * list string -> string -> bool -> string * list string
         -> bool) : bool :=
  forallb (fun sh =>
    forallb (fun a =>
      let r := step (of_shape sh) a in P sh a (fst r) (shape (snd r)))
      input_alphabet)
    reachable_shapes.

(** A successful step into the accepting shape reads T or Q in state qEnd
    with QRS above the sentinel. *)
Definition into_accepting_check : bool :=
  for_all_steps (fun sh a ok sh' =>
    implb (ok && shape_eqb sh' ("qEnd", ["Z0"]))
          (PyStr.mem a ["T"; "Q"] && shape_eqb sh ("qEnd", ["Z0"; "QRS"]))).

(** A successful step into state qEnd with QRS above the sentinel reads T
    or QT. *)
Definition into_end_check : bool :=
  for_all_steps (fun sh a ok sh' =>
    implb (ok && shape_eqb sh' ("qEnd", ["Z0"; "QRS"]))
          (PyStr.mem a ["T"; "QT"])).

(** The test of the axis branch of [infer_tasks] at index [i]. *)
Definition axis_at (ls : list string) (i : nat) (lead : string) : bool :=
  (i <? length ls - 1)%nat
  && ((String.eqb lead "I" && lead_is ls (i + 1) "aVF")
      || (String.eqb lead "aVF" && (0 <? i)%nat && lead_is ls (i - 1) "I")).

(** The symbols [infer_tasks] can produce. *)
Definition inferred_alphabet : list string :=
  ["R"; "Rh"; "Ax"; "Q"; "Detail"; "ST"; "T"].

Definition not_detail (x : string) : bool := negb (String.eqb x "Detail").

(** In a task sequence, Q comes before T. *)
Definition Q_before_T (ts : list string) : Prop :=
  forall pre post, ts = pre ++ "T" :: post -> In "Q" pre.

(** ** String and list helpers *)

Lemma list_eqb_eq (l1 l2 : list string) :
  PyStr.list_eqb l1 l2 = true <-> l1 = l2.
Proof.
  revert l2; induction l1 as [|x l1 IH]; intros [|y l2]; simpl;
    try (split; intros; discriminate); [tauto|].
  rewrite andb_true_iff, String.eqb_eq, IH.
  split; [intros [-> ->]; reflexivity | intros [= -> ->]; auto].
Qed.

Lemma mem_In (x : string) (l : list string) :
  PyStr.mem x l = true <-> In x l.
Proof.
  unfold PyStr.mem. rewrite existsb_exists. split.
  - intros [y [Hy Heq]]. apply String.eqb_eq in Heq. subst. exact Hy.
  - intros H. exists x. split; [exact H | apply String.eqb_refl].
Qed.

Lemma in_accepting (st : string) :
  bool_decide (st ∈ accepting_states) = true <-> st = "qEnd".
Proof.
  rewrite bool_decide_eq_true. unfold accepting_states.
  rewrite elem_of_singleton. tauto.
Qed.

Lemma last_long (l : list string) :
  1 < length l -> exists top, last l = Some top.
Proof.
  destruct l as [|x l] using rev_ind; simpl; [lia|].
  intros _. exists x. apply last_snoc.
Qed.

(** *** The stack operations of the table, decoded *)

Example split_double_push :
  PyStr.split ":" "push:QRS:push:ST" = ["push"; "QRS"; "push"; "ST"].
Proof. reflexivity. Qed.

Example split_no_separator : PyStr.split ":" "noop" = ["noop"].
Proof. reflexivity. Qed.

Example apply_double_push :
  apply_operation "push:QRS:push:ExpectRepol" ["Z0"]
  = ["Z0"; "QRS"; "ExpectRepol"].
Proof. reflexivity. Qed.

Example apply_pop_push :
  apply_operation "pop:push:ST" ["Z0"; "QRS"; "ExpectRepol"]
  = ["Z0"; "QRS"; "ST"].
Proof. reflexivity. Qed.

Example apply_pop : apply_operation "pop" ["Z0"; "QRS"] = ["Z0"].
Proof. reflexivity. Qed.

(** *** The invariant *)

Lemma known_shape_In (sh : string * list string) :
  known_shape sh = true <-> In sh reachable_shapes.
Proof.
  unfold known_shape. rewrite existsb_exists. split.
  - intros [sh' [Hin Heq]]. unfold shape_eqb in Heq.
    apply andb_true_iff in Heq as [H1 H2].
    apply String.eqb_eq in H1. apply list_eqb_eq in H2.
    destruct sh, sh'; simpl in *; subst; exact Hin.
  - intros Hin. exists sh. split; [exact Hin|].
    unfold shape_eqb. rewrite String.eqb_refl. simpl.
    apply list_eqb_eq. reflexivity.
Qed.

(** Case analysis on a configuration that satisfies the invariant. *)
Ltac shape_cases H :=
  unfold Inv, shape in H; simpl in H;
  repeat (destruct H as [H|H]); try contradiction;
  injection H as <- <-.

(** *** [_find_transition] is a scan of the table *)

Lemma find_transition_Some (c : Configuration) (a top : string)
    (t : PDATransition) :
  _find_transition c a top = Some t ->
  In t transitions /\ from_state t = current_state c
  /\ input_symbol t = a /\ stack_top t = top.
Proof.
  unfold _find_transition. intros H. apply find_some in H as [Hin Hm].
  unfold matches in Hm.
  apply andb_true_iff in Hm as [Hm H3]. apply andb_true_iff in Hm as [H1 H2].
  apply String.eqb_eq in H1, H2, H3. auto.
Qed.

Lemma find_transition_None (c : Configuration) (a top : string) :
  _find_transition c a top = None <->
  (forall t, In t transitions -> matches (current_state c) a top t = false).
Proof.
  unfold _find_transition. split.
  - intros H t Hin. exact (find_none _ _ H t Hin).
  - intros H. destruct (find _ _) as [t|] eqn:E; [|reflexivity].
    apply find_some in E as [Hin Hm]. rewrite (H t Hin) in Hm. discriminate.
Qed.

Lemma step_outside_alphabet (c : Configuration) (a : string) :
  ~ In a input_alphabet -> step c a = (false, c).
Proof.
  intros Hn. unfold step. destruct (last (stack c)) as [top|]; [|reflexivity].
  destruct (_find_transition c a top) as [t|] eqn:E; [|reflexivity].
  apply find_transition_Some in E as (Hin & _ & Ha & _).
  exfalso. apply Hn. subst a. unfold input_alphabet.
  apply in_map. exact Hin.
Qed.

(** [step] does not read the history: result and new shape are those of
    the step from the same shape with an empty history. *)
Lemma step_shape (c : Configuration) (a : string) :
  fst (step c a) = fst (step (of_shape (shape c)) a)
  /\ shape (snd (step c a)) = shape (snd (step (of_shape (shape c)) a)).
Proof.
  destruct c as [st stk h]. unfold step, _find_transition, shape, of_shape.
  cbn [current_state stack fst snd].
  destruct (last stk) as [top|]; [|split; reflexivity].
  destruct (List.find (matches st a top) transitions); split; reflexivity.
Qed.

Lemma step_closed_check_true : step_closed_check = true.
Proof. vm_compute. reflexivity. Qed.

Lemma step_Inv (c : Configuration) (a : string) :
  Inv c -> Inv (snd (step c a)).
Proof.
  intros HI. destruct (in_dec string_dec a input_alphabet) as [Ha|Ha].
  - unfold Inv. rewrite (proj2 (step_shape c a)).
    apply known_shape_In.
    pose proof step_closed_check_true as Hc. unfold step_closed_check in Hc.
    rewrite forallb_forall in Hc. specialize (Hc _ HI).
    rewrite forallb_forall in Hc. exact (Hc _ Ha).
  - rewrite (step_outside_alphabet c a Ha). exact HI.
Qed.

Lemma reset_Inv (c : Configuration) : Inv (reset c).
Proof. unfold Inv. simpl. auto. Qed.

Lemma reachable_Inv (c : Configuration) : reachable c -> Inv c.
Proof.
  induction 1 as [c|c a _ IH]; [apply reset_Inv | apply step_Inv, IH].
Qed.

Lemma replay_Inv (s : list string) (c : Configuration) :
  Inv c -> Inv (replay c s).
Proof.
  revert c. induction s as [|a s IH]; intros c HI; simpl; [exact HI|].
  apply IH, step_Inv, HI.
Qed.

Lemma process_loop_Inv (s : list string) (c : Configuration) :
  Inv c -> Inv (snd (process_loop c s)).
Proof.
  revert c. induction s as [|a s IH]; intros c HI; simpl; [exact HI|].
  pose proof (step_Inv c a HI) as HS.
  destruct (step c a) as [ok c']. simpl in HS.
  destruct ok; [apply IH, HS | exact HS].
Qed.

(** ** The engine *)

(** C1. On the input R, Rh, Ax, Q, ST, T the engine takes all six steps
    and ends in state qEnd, but with QRS still above the sentinel:
    [process_sequence] returns false and the stack is [Z0, QRS]. *)
Theorem normal_flow_leaves_QRS :
  let r := process_sequence init ["R"; "Rh"; "Ax"; "Q"; "ST"; "T"] in
  fst r = false
  /\ current_state (snd r) = "qEnd"
  /\ stack (snd r) = ["Z0"; "QRS"]
  /\ List.length (history (snd r)) = 6.
Proof. vm_compute. repeat split. Qed.

(** C3. [accepts] holds exactly when the state is qEnd and the stack is
    the sentinel alone; qEnd with anything above the sentinel, or the
    sentinel alone in another state, is not accepting. *)
Theorem accepts_iff_end_and_sentinel :
  (forall c, accepts c = true
             <-> current_state c = "qEnd" /\ stack c = ["Z0"])
  /\ (forall x rest h, accepts (mkConfig "qEnd" ("Z0" :: x :: rest) h) = false)
  /\ (forall st h, st <> "qEnd" -> accepts (mkConfig st ["Z0"] h) = false).
Proof.
  assert (Hiff : forall c, accepts c = true
                           <-> current_state c = "qEnd" /\ stack c = ["Z0"]).
  { intros c. unfold accepts.
    rewrite andb_true_iff, in_accepting, list_eqb_eq. tauto. }
  split; [exact Hiff|]. split.
  - intros x rest h. apply not_true_iff_false. rewrite Hiff. simpl.
    intros [_ H]. discriminate H.
  - intros st h Hst. apply not_true_iff_false. rewrite Hiff. simpl.
    intros [H _]. exact (Hst H).
Qed.

(** C5. When no transition of the table matches the current state, the
    input and the top of the stack, [step] returns false and the
    configuration is the one it was: state, stack and history, with no
    entry appended. *)
Theorem step_no_match_unchanged (c : Configuration) (a top : string) :
  last (stack c) = Some top ->
  (forall t, In t transitions -> matches (current_state c) a top t = false) ->
  step c a = (false, c)
  /\ current_state (snd (step c a)) = current_state c
  /\ stack (snd (step c a)) = stack c
  /\ history (snd (step c a)) = history c.
Proof.
  intros Htop Hno. apply find_transition_None in Hno.
  assert (E : step c a = (false, c)).
  { unfold step. rewrite Htop, Hno. reflexivity. }
  rewrite E. simpl. auto.
Qed.

Lemma step_no_match_unchanged_witness :
  step init "V1" = (false, init)
  /\ history (snd (step init "V1")) = history init.
Proof.
  destruct (step_no_match_unchanged init "V1" "Z0") as (H1 & _ & _ & H4).
  - reflexivity.
  - intros t Ht. simpl in Ht.
    repeat (destruct Ht as [<-|Ht]; [reflexivity|]). contradiction.
  - split; assumption.
Defined.

(** C9. The table is deterministic: for the triple of every transition of
    the table, that transition is the only one of the table that matches,
    and it is the one the lookup returns. *)
Theorem transitions_deterministic (t : PDATransition) :
  In t transitions ->
  List.filter (matches (from_state t) (input_symbol t) (stack_top t))
              transitions = [t]
  /\ (forall c, current_state c = from_state t ->
        _find_transition c (input_symbol t) (stack_top t) = Some t).
Proof.
  intros Ht. simpl in Ht.
  repeat (destruct Ht as [<-|Ht];
          [split; [vm_compute; reflexivity
                  | intros c Hc; unfold _find_transition; rewrite Hc;
                    vm_compute; reflexivity]|]).
  contradiction.
Qed.

Lemma transitions_deterministic_witness :
  let t := mkTransition "qDetail" "ST" "ExpectRepol" "qST" "pop:push:ST" in
  List.filter (matches (from_state t) (input_symbol t) (stack_top t))
              transitions = [t].
Proof.
  apply (transitions_deterministic
           (mkTransition "qDetail" "ST" "ExpectRepol" "qST" "pop:push:ST")).
  simpl. tauto.
Defined.

(** C4. After [reset] and [process_sequence] on any sequence the stack is
    not empty and its first element is Z0; and a transition of the table
    that reads Z0 as the stack top only appends to the stack, so the
    sentinel is never popped. *)
Theorem sentinel_stays_at_bottom :
  (forall c s,
     let c' := snd (process_sequence (reset c) s) in
     stack c' <> [] /\ stack c' !! 0 = Some "Z0")
  /\ (forall t, In t transitions -> stack_top t = "Z0" ->
        forall c a, exists syms,
          stack (_execute_transition c t a) = stack c ++ syms).
Proof.
  split.
  - intros c s c'.
    assert (HI : Inv c').
    { apply process_loop_Inv, reset_Inv. }
    destruct c' as [st stk h]. shape_cases HI; split; (discriminate || reflexivity).
  - intros t Ht Htop c a. unfold _execute_transition.
    cbn [stack]. simpl in Ht.
    repeat (destruct Ht as [<-|Ht];
            [first [ discriminate Htop
                   | exists []; rewrite app_nil_r; reflexivity
                   | eexists; reflexivity ]|]).
    contradiction.
Qed.

Lemma step_false_unchanged (c : Configuration) (a : string) :
  fst (step c a) = false -> snd (step c a) = c.
Proof.
  unfold step. destruct (last (stack c)) as [top|]; [|reflexivity].
  destruct (_find_transition c a top); [discriminate | reflexivity].
Qed.

Lemma process_loop_cases (s : list string) (c : Configuration) :
  (exists c1, all_steps c s c1 /\ process_loop c s = (accepts c1, c1))
  \/ (exists pre a post c1,
        s = pre ++ a :: post /\ all_steps c pre c1
        /\ fst (step c1 a) = false /\ process_loop c s = (false, c1)).
Proof.
  revert c. induction s as [|a s IH]; intros c.
  - left. exists c. split; [constructor | reflexivity].
  - simpl. destruct (step c a) as [ok c'] eqn:E. destruct ok.
    + destruct (IH c') as [(c1 & Hs & Hp) | (pre & b & post & c1 & -> & Hs & Hf & Hp)].
      * left. exists c1. split; [econstructor; eassumption | exact Hp].
      * right. exists (a :: pre), b, post, c1.
        repeat split; [econstructor; eassumption | exact Hf | exact Hp].
    + right. exists [], a, s, c.
      pose proof (step_false_unchanged c a) as Hu. rewrite E in Hu.
      simpl in Hu. rewrite (Hu eq_refl).
      repeat split; [constructor | rewrite E; reflexivity].
Qed.

(** C6. [process_sequence] starts from the reset configuration and steps
    through the symbols in order.  Either every step succeeds and the
    result is [accepts] of the configuration reached; or the sequence
    splits at its first failing step, the result is false, and the engine
    is left in the configuration reached before that step, whatever
    follows it. *)
Theorem process_sequence_short_circuits (c : Configuration) (s : list string) :
  (exists c1, all_steps (reset c) s c1
              /\ process_sequence c s = (accepts c1, c1))
  \/ (exists pre a post c1,
        s = pre ++ a :: post /\ all_steps (reset c) pre c1
        /\ fst (step c1 a) = false
        /\ process_sequence c s = (false, c1)
        /\ forall post', process_sequence c (pre ++ a :: post') = (false, c1)).
Proof.
  unfold process_sequence.
  destruct (process_loop_cases s (reset c))
    as [H | (pre & a & post & c1 & Hs & Hall & Hf & Hp)]; [left; exact H|].
  right. exists pre, a, post, c1. repeat split; try assumption.
  intros post'. clear Hs Hp. induction Hall as [c0 | c0 c' c'' b s' Hb _ IH].
  - simpl. pose proof (step_false_unchanged c0 a Hf) as Hu.
    destruct (step c0 a) as [ok c2]. simpl in *. subst. reflexivity.
  - simpl. rewrite Hb. apply IH, Hf.
Qed.

(** C7. [get_missing_tasks] appends, in the order ExpectRepol, QRS, ST, the
    fixed list of each of these symbols that occurs in the stack, without
    removing duplicates; after R, Rh, Ax, Q, Detail, where
    [process_sequence] returns false with stack [Z0, QRS, ExpectRepol], the
    result is ST, T, Q, ST, T. *)
Theorem missing_tasks_by_priority :
  (forall c, get_missing_tasks c = missing_by_rules (stack c))
  /\ (let r := process_sequence init ["R"; "Rh"; "Ax"; "Q"; "Detail"] in
      fst r = false
      /\ stack (snd r) = ["Z0"; "QRS"; "ExpectRepol"]
      /\ get_missing_tasks (snd r) = ["ST"; "T"; "Q"; "ST"; "T"])
  /\ (forall st h, get_missing_tasks (mkConfig st ["Z0"; "QRS"; "ST"] h)
                   = ["Q"; "ST"; "T"; "T"]).
Proof.
  split; [|split; [vm_compute; auto | reflexivity]].
  intros c. unfold get_missing_tasks, missing_by_rules. simpl.
  assert (Hm : forall x, PyStr.mem x (stack c)
                         = if decide (x ∈ stack c) then true else false).
  { intros x. destruct (decide (x ∈ stack c)) as [H|H].
    - apply mem_In, list_elem_of_In, H.
    - apply not_true_iff_false. intros H'. apply H.
      apply list_elem_of_In, mem_In, H'. }
  rewrite !Hm.
  destruct (decide ("ExpectRepol" ∈ stack c)),
           (decide ("QRS" ∈ stack c)), (decide ("ST" ∈ stack c));
    reflexivity.
Qed.

(** C10. On every configuration reached from [reset] by calls of [step],
    [is_incomplete] is the negation of [accepts]; the stack of such a
    configuration is not empty and has Z0 at the bottom. *)
Theorem incomplete_is_not_accepting (c : Configuration) :
  reachable c ->
  is_incomplete c = negb (accepts c)
  /\ stack c <> [] /\ stack c !! 0 = Some "Z0".
Proof.
  intros Hr. apply reachable_Inv in Hr. destruct c as [st stk h].
  shape_cases Hr; repeat split; (discriminate || reflexivity).
Qed.

Lemma incomplete_is_not_accepting_witness :
  let c := snd (step (snd (step (reset init) "R")) "Rh") in
  is_incomplete c = negb (accepts c).
Proof.
  apply (incomplete_is_not_accepting
           (snd (step (snd (step (reset init) "R")) "Rh"))).
  apply reach_step, reach_step, reach_reset.
Defined.

(** ** The completer *)

Lemma process_loop_true_replay (s : list string) (c : Configuration) :
  fst (process_loop c s) = true -> accepts (replay c s) = true.
Proof.
  revert c. induction s as [|a s IH]; intros c; simpl; [tauto|].
  destruct (step c a) as [ok c']. destruct ok; [apply IH | discriminate].
Qed.

Lemma process_loop_app_true (s t : list string) (c : Configuration) :
  fst (process_loop c (s ++ t)) = true ->
  fst (process_loop (replay c s) t) = true.
Proof.
  revert c. induction s as [|a s IH]; intros c; simpl; [tauto|].
  destruct (step c a) as [ok c']. destruct ok; [apply IH | discriminate].
Qed.

(** C8. When [process_sequence] accepts a sequence, [complete_scanpath]
    returns that sequence, with nothing appended. *)
Theorem accepted_sequence_unchanged (c : Configuration) (s : list string) :
  fst (process_sequence c s) = true ->
  exists c', complete_scanpath c s = Some (s, c').
Proof.
  unfold process_sequence, complete_scanpath. intros H.
  apply process_loop_true_replay in H. rewrite H. eexists. reflexivity.
Qed.

Lemma accepted_sequence_unchanged_witness :
  exists c', complete_scanpath init ["R"; "Rh"; "Ax"; "Q"; "ST"; "T"; "T"]
             = Some (["R"; "Rh"; "Ax"; "Q"; "ST"; "T"; "T"], c').
Proof.
  apply (accepted_sequence_unchanged init
           ["R"; "Rh"; "Ax"; "Q"; "ST"; "T"; "T"]).
  vm_compute. reflexivity.
Defined.

(** The [while] loop ends within its bound: the unfolding allowed by
    [synthesis] is never used up, and the stack top is there whenever the
    loop body runs. *)
Lemma while_loop_total (fuel : nat) (v : LoopVars) :
  max_iterations - iterations v <= fuel ->
  exists r, while_loop fuel v = Some r.
Proof.
  revert v. induction fuel as [|fuel IH]; intros v Hf; simpl.
  - destruct (1 <? length (stack (pda v)))%nat; simpl; [|eexists; reflexivity].
    destruct (iterations v <? max_iterations)%nat eqn:E; [|eexists; reflexivity].
    apply Nat.ltb_lt in E. lia.
  - destruct (1 <? length (stack (pda v)))%nat eqn:El; simpl;
      [|eexists; reflexivity].
    destruct (iterations v <? max_iterations)%nat eqn:E; [|eexists; reflexivity].
    apply Nat.ltb_lt in El. destruct (last_long _ El) as [top ->].
    destruct (completion_rules !! top) as [rule|]; [|eexists; reflexivity].
    destruct (add_required _ _ _) as [c' comp]. apply IH.
    cbn [iterations]. lia.
Qed.

Lemma synthesis_total (c : Configuration) : exists r, synthesis c = Some r.
Proof. apply while_loop_total. cbn [iterations]. lia. Qed.

(** From a configuration of the engine that is not accepting, the loop
    ends because the stack is down to one entry, after at most three
    rounds, and the symbols it produced are not accepted from there. *)
Lemma synthesis_outcome (c : Configuration) :
  Inv c -> accepts c = false ->
  exists v, synthesis c = Some (v, ConditionFalse)
            /\ iterations v <= 3
            /\ length (stack (pda v)) = 1
            /\ fst (process_loop c (completion v)) = false.
Proof.
  intros HI Hacc. destruct c as [st stk h].
  shape_cases HI; try (vm_compute in Hacc; discriminate Hacc);
    (eexists; split; [vm_compute; reflexivity|]);
    cbn [iterations pda completion stack length];
    (split; [lia|]); (split; [reflexivity|]); vm_compute; reflexivity.
Qed.

(** C2, as stated, fails on the partial sequence R, Rh: the replay ends
    in state qAxis with the sentinel alone on the stack, so the loop body
    never runs and nothing is appended; the returned sequence R, Rh is
    rejected by [validate_completion], and the loop did not stop on an
    unknown stack symbol. *)
Lemma completion_third_outcome : ~ validated_or_unknown_abort ["R"; "Rh"].
Proof.
  intros [(out & c' & Hc & Hv) | (v & Hs & _)].
  - vm_compute in Hc. injection Hc as <- <-. vm_compute in Hv.
    discriminate Hv.
  - vm_compute in Hs. discriminate Hs.
Qed.

(** The result of [complete_scanpath] on any partial sequence: the
    returned sequence is accepted by [validate_completion] exactly when
    [process_sequence] already accepts the partial sequence; when the
    replayed engine is not accepting, the loop ends on its condition with
    one stack entry left, after fewer than 50 rounds, and the returned
    sequence is the partial one followed by the synthesised symbols. *)
Lemma complete_scanpath_result (c : Configuration) (partial : list string) :
  exists out c',
    complete_scanpath c partial = Some (out, c')
    /\ (fst (validate_completion c' out) = true
        <-> fst (process_sequence c partial) = true)
    /\ (accepts (replay (reset c) partial) = false ->
        exists v,
          synthesis (replay (reset c) partial) = Some (v, ConditionFalse)
          /\ iterations v < max_iterations
          /\ length (stack (pda v)) = 1
          /\ out = partial ++ completion v
          /\ fst (validate_completion c' out) = false).
Proof.
  unfold complete_scanpath, validate_completion, process_sequence.
  change (reset (reset c)) with (reset c).
  destruct (accepts (replay (reset c) partial)) eqn:Hacc.
  - eexists _, _. split; [reflexivity|]. split; [|discriminate].
    change (reset (replay (reset c) partial)) with (reset c). tauto.
  - assert (HI : Inv (replay (reset c) partial))
      by apply replay_Inv, reset_Inv.
    destruct (synthesis_outcome _ HI Hacc) as (v & Hs & Hit & Hlen & Hrej).
    unfold _generate_completion. rewrite Hs.
    assert (Hout : fst (process_loop (reset (pda v))
                          (partial ++ completion v)) = false).
    { apply not_true_iff_false. intros Ht.
      change (reset (pda v)) with (reset c) in Ht.
      apply process_loop_app_true in Ht. rewrite Hrej in Ht. discriminate. }
    eexists _, _. split; [reflexivity|].
    change (reset (reset (pda v))) with (reset (pda v)). split.
    + rewrite Hout. split; [discriminate|].
      intros Ht. apply process_loop_true_replay in Ht.
      rewrite Hacc in Ht. discriminate.
    + intros _. exists v. repeat split; try assumption.
      unfold max_iterations. lia.
Qed.

(** C2, amended. For every partial sequence [complete_scanpath] returns a
    sequence, and one of four things holds: [validate_completion] accepts
    it; or the synthesis loop stopped on an unknown stack symbol after
    fewer than 50 rounds; or the loop ended after fewer than 50 rounds
    because the stack was down to one entry, and the returned sequence, the
    partial one followed by the synthesised symbols, is rejected by
    [validate_completion]; or the replay, which ignores failed steps, left
    the engine accepting, and the partial sequence is returned as it is and
    rejected by [validate_completion]. *)
Theorem completion_outcomes (c : Configuration) (partial : list string) :
  exists out c',
    complete_scanpath c partial = Some (out, c')
    /\ (fst (validate_completion c' out) = true
        \/ (accepts (replay (reset c) partial) = false
            /\ exists v,
              synthesis (replay (reset c) partial) = Some (v, UnknownSymbol)
              /\ iterations v < max_iterations)
        \/ (accepts (replay (reset c) partial) = false
            /\ exists v,
              synthesis (replay (reset c) partial) = Some (v, ConditionFalse)
              /\ iterations v < max_iterations
              /\ length (stack (pda v)) = 1
              /\ out = partial ++ completion v
              /\ fst (validate_completion c' out) = false)
        \/ (accepts (replay (reset c) partial) = true
            /\ out = partial
            /\ fst (validate_completion c' out) = false)).
Proof.
  destruct (complete_scanpath_result c partial) as (out & c' & Hc & _ & Hs).
  exists out, c'. split; [exact Hc|].
  destruct (accepts (replay (reset c) partial)) eqn:Hacc.
  - unfold complete_scanpath in Hc. rewrite Hacc in Hc.
    injection Hc as <- <-.
    destruct (fst (validate_completion (replay (reset c) partial) partial));
      [left; reflexivity | right; right; right; auto].
  - right. right. left. split; [reflexivity | exact (Hs eq_refl)].
Qed.


(** ** More on the engine *)

Lemma accepts_true (c : Configuration) :
  accepts c = true <-> current_state c = "qEnd" /\ stack c = ["Z0"].
Proof.
  unfold accepts. rewrite andb_true_iff, in_accepting, list_eqb_eq. tauto.
Qed.

Lemma for_all_steps_sound
    (P : string * list string -> string -> bool -> string * list string
         -> bool) :
  for_all_steps P = true ->
  forall c a, Inv c -> In a input_alphabet ->
    P (shape c) a (fst (step c a)) (shape (snd (step c a))) = true.
Proof.
  intros H c a HI Ha. unfold for_all_steps in H.
  rewrite forallb_forall in H. specialize (H _ HI).
  rewrite forallb_forall in H. specialize (H _ Ha). simpl in H.
  destruct (step_shape c a) as [-> ->]. exact H.
Qed.

Lemma step_true_alphabet (c : Configuration) (a : string) :
  fst (step c a) = true -> In a input_alphabet.
Proof.
  intros H. destruct (in_dec string_dec a input_alphabet) as [Ha|Ha];
    [exact Ha|].
  rewrite (step_outside_alphabet c a Ha) in H. discriminate H.
Qed.

Lemma shape_eqb_eq (a b : string * list string) :
  shape_eqb a b = true <-> a = b.
Proof.
  unfold shape_eqb. rewrite andb_true_iff, String.eqb_eq, list_eqb_eq.
  destruct a, b; simpl. split; [intros [-> ->]; reflexivity|].
  intros [= -> ->]. auto.
Qed.

Lemma accepts_shape (c : Configuration) :
  accepts c = true <-> shape c = ("qEnd", ["Z0"]).
Proof.
  unfold accepts, shape. rewrite andb_true_iff, in_accepting, list_eqb_eq.
  split; [intros [-> ->]; reflexivity | intros [= -> ->]; auto].
Qed.

Lemma all_steps_Inv (c c' : Configuration) (s : list string) :
  all_steps c s c' -> Inv c -> Inv c'.
Proof.
  induction 1 as [c|c c' c'' a s Hst _ IH]; intros HI; [exact HI|].
  apply IH. pose proof (step_Inv c a HI) as HS. rewrite Hst in HS. exact HS.
Qed.

Lemma all_steps_snoc (c c'' : Configuration) (s : list string) (a : string) :
  all_steps c (s ++ [a]) c'' ->
  exists c', all_steps c s c' /\ step c' a = (true, c'').
Proof.
  revert c. induction s as [|b s IH]; intros c H; simpl in H.
  - inversion H as [|? c1 ? ? ? Hst Hrest]; subst.
    inversion Hrest; subst. exists c. split; [constructor | exact Hst].
  - inversion H as [|? c1 ? ? ? Hst Hrest]; subst.
    destruct (IH _ Hrest) as (c' & Hs & Hl).
    exists c'. split; [econstructor; eassumption | exact Hl].
Qed.

Lemma process_loop_true (s : list string) (c : Configuration) :
  fst (process_loop c s) = true ->
  exists c', all_steps c s c' /\ accepts c' = true
             /\ process_loop c s = (true, c').
Proof.
  intros H.
  destruct (process_loop_cases s c)
    as [(c1 & Hs & Hp) | (pre & a & post & c1 & _ & _ & _ & Hp)];
    rewrite Hp in H; simpl in H; [|discriminate H].
  exists c1. rewrite Hp, H. auto.
Qed.

Lemma into_accepting (c c' : Configuration) (a : string) :
  Inv c -> step c a = (true, c') -> accepts c' = true ->
  (a = "T" \/ a = "Q") /\ shape c = ("qEnd", ["Z0"; "QRS"]).
Proof.
  intros HI Hst Hacc.
  assert (Ha : In a input_alphabet)
    by (apply (step_true_alphabet c); rewrite Hst; reflexivity).
  assert (Hc : into_accepting_check = true) by (vm_compute; reflexivity).
  pose proof (for_all_steps_sound _ Hc c a HI Ha) as H.
  rewrite Hst in H. cbn [fst snd] in H.
  apply accepts_shape in Hacc. rewrite Hacc in H.
  cbn [andb implb shape_eqb fst snd String.eqb] in H.
  change (shape_eqb ("qEnd", ["Z0"]) ("qEnd", ["Z0"])) with true in H.
  cbn [andb implb] in H.
  apply andb_true_iff in H as [H1 H2]. apply shape_eqb_eq in H2.
  apply mem_In in H1. simpl in H1. split; [|exact H2].
  destruct H1 as [<-|[<-|[]]]; auto.
Qed.

Lemma into_end (c c' : Configuration) (a : string) :
  Inv c -> step c a = (true, c') -> shape c' = ("qEnd", ["Z0"; "QRS"]) ->
  a = "T" \/ a = "QT".
Proof.
  intros HI Hst Hsh.
  assert (Ha : In a input_alphabet)
    by (apply (step_true_alphabet c); rewrite Hst; reflexivity).
  assert (Hc : into_end_check = true) by (vm_compute; reflexivity).
  pose proof (for_all_steps_sound _ Hc c a HI Ha) as H.
  rewrite Hst in H. cbn [fst snd] in H. rewrite Hsh in H.
  change (shape_eqb ("qEnd", ["Z0"; "QRS"]) ("qEnd", ["Z0"; "QRS"]))
    with true in H.
  cbn [andb implb] in H. apply mem_In in H. simpl in H.
  destruct H as [<-|[<-|[]]]; auto.
Qed.

(** A run of successful steps from the reset engine that ends accepting
    has T or QT, then T or Q, as its last two symbols. *)
Lemma run_into_accepting (c c2 : Configuration) (s : list string) :
  all_steps (reset c) s c2 -> accepts c2 = true ->
  exists s' x y, s = s' ++ [x; y]
                 /\ (x = "T" \/ x = "QT") /\ (y = "T" \/ y = "Q").
Proof.
  intros Hall Hacc.
  destruct s as [|y0 s0] using rev_ind.
  { inversion Hall; subst. vm_compute in Hacc. discriminate Hacc. }
  clear IHs0.
  apply all_steps_snoc in Hall as (c1 & Hall1 & Hst1).
  pose proof (all_steps_Inv _ _ _ Hall1 (reset_Inv c)) as HI1.
  destruct (into_accepting _ _ _ HI1 Hst1 Hacc) as [Hy Hsh1].
  destruct s0 as [|x0 s1] using rev_ind.
  { inversion Hall1; subst. vm_compute in Hsh1. discriminate Hsh1. }
  clear IHs1.
  apply all_steps_snoc in Hall1 as (c0 & Hall0 & Hst0).
  pose proof (all_steps_Inv _ _ _ Hall0 (reset_Inv c)) as HI0.
  pose proof (into_end _ _ _ HI0 Hst0 Hsh1) as Hx.
  exists s1, x0, y0. rewrite <- app_assoc. auto.
Qed.

(** X1. A sequence that [process_sequence] accepts ends with T or QT
    followed by T or Q: the symbol that brings the engine to qEnd, and the
    one that pops QRS there. *)
Theorem accepted_ends_with_two_closing_symbols
    (c : Configuration) (s : list string) :
  fst (process_sequence c s) = true ->
  exists s' x y, s = s' ++ [x; y]
                 /\ (x = "T" \/ x = "QT") /\ (y = "T" \/ y = "Q").
Proof.
  unfold process_sequence. intros H.
  destruct (process_loop_true _ _ H) as (c2 & Hall & Hacc & _).
  exact (run_into_accepting c c2 s Hall Hacc).
Qed.

Lemma accepted_ends_with_two_closing_symbols_witness :
  exists s' x y, ["R"; "Rh"; "Ax"; "Q"; "ST"; "T"; "T"] = s' ++ [x; y]
                 /\ (x = "T" \/ x = "QT") /\ (y = "T" \/ y = "Q").
Proof.
  apply (accepted_ends_with_two_closing_symbols init
           ["R"; "Rh"; "Ax"; "Q"; "ST"; "T"; "T"]).
  vm_compute. reflexivity.
Defined.

Lemma process_loop_app_ok (s t : list string) (c c' : Configuration) :
  all_steps c s c' -> process_loop c (s ++ t) = process_loop c' t.
Proof.
  induction 1 as [c|c c1 c2 a s Hst _ IH]; [reflexivity|].
  simpl. rewrite Hst. exact IH.
Qed.

(** X2. In an accepting configuration every further symbol is refused: no
    transition leaves state qEnd with the sentinel on top.  So a proper
    extension of an accepted sequence is rejected by [process_sequence],
    which leaves the engine in the accepting configuration it had reached,
    where [accepts] still answers true. *)
Theorem accepting_is_final (c : Configuration) :
  accepts c = true ->
  (forall a, step c a = (false, c))
  /\ (forall c0 s a t,
        process_sequence c0 s = (true, c) ->
        process_sequence c0 (s ++ a :: t) = (false, c)
        /\ accepts (snd (process_sequence c0 (s ++ a :: t))) = true).
Proof.
  intros Hacc.
  assert (Hstep : forall a, step c a = (false, c)).
  { intros a. pose proof Hacc as Hsh.
    apply accepts_true in Hsh as [Hst Hstk].
    unfold step. rewrite Hstk. cbn [last].
    replace (_find_transition c a "Z0") with (@None PDATransition);
      [reflexivity|].
    symmetry. apply find_transition_None. rewrite Hst.
    intros t Ht. simpl in Ht. unfold matches.
    repeat (destruct Ht as [<-|Ht];
            [cbn; rewrite ?andb_false_r; reflexivity|]).
    contradiction. }
  split; [exact Hstep|].
  intros c0 s a t Hp. unfold process_sequence in *.
  assert (Ht : fst (process_loop (reset c0) s) = true) by (rewrite Hp; auto).
  destruct (process_loop_true _ _ Ht) as (c' & Hall & _ & Hp').
  rewrite Hp in Hp'. injection Hp' as <-.
  rewrite (process_loop_app_ok s (a :: t) _ _ Hall). simpl.
  rewrite (Hstep a). simpl. auto.
Qed.

Lemma accepting_is_final_witness :
  step (mkConfig "qEnd" ["Z0"] []) "T"
  = (false, mkConfig "qEnd" ["Z0"] []).
Proof.
  apply (proj1 (accepting_is_final (mkConfig "qEnd" ["Z0"] []) eq_refl)).
Defined.

Lemma all_steps_history (c c' : Configuration) (s : list string) :
  all_steps c s c' ->
  exists entries, history c' = history c ++ entries
                  /\ List.map h_input entries = s.
Proof.
  induction 1 as [c|c c1 c2 a s Hst _ (entries & He & Hm)].
  - exists []. rewrite app_nil_r. auto.
  - unfold step in Hst. destruct (last (stack c)) as [top|]; [|discriminate].
    destruct (_find_transition c a top) as [t|]; [|discriminate].
    injection Hst as <-. cbn [_execute_transition history] in He.
    eexists (_ :: entries). rewrite He, <- app_assoc. split; [reflexivity|].
    simpl. rewrite Hm. reflexivity.
Qed.

(** X3. After [process_sequence] the inputs recorded in the history are
    the symbols consumed: the whole sequence when no step failed, and
    otherwise the part before the first symbol that was refused. *)
Theorem history_records_consumed_prefix (c : Configuration) (s : list string) :
  let r := process_sequence c s in
  exists rest,
    s = List.map h_input (history (snd r)) ++ rest
    /\ match rest with
       | [] => fst r = accepts (snd r)
       | a :: _ => fst r = false /\ fst (step (snd r) a) = false
       end.
Proof.
  unfold process_sequence. cbn zeta.
  destruct (process_loop_cases s (reset c))
    as [(c1 & Hs & Hp) | (pre & a & post & c1 & -> & Hs & Hf & Hp)];
    rewrite Hp; cbn [fst snd];
    destruct (all_steps_history _ _ _ Hs) as (entries & He & Hm);
    cbn [reset history app] in He; rewrite He, Hm.
  - exists []. rewrite app_nil_r. auto.
  - exists (a :: post). auto.
Qed.

Lemma replay_app (s t : list string) (c : Configuration) :
  replay c (s ++ t) = replay (replay c s) t.
Proof.
  revert c. induction s as [|a s IH]; intros c; simpl; [reflexivity|].
  apply IH.
Qed.

Lemma step_history (c : Configuration) (a : string) :
  let r := step c a in
  if fst r
  then exists t,
      _find_transition c a (stack_top t) = Some t
      /\ last (stack c) = Some (stack_top t)
      /\ history (snd r)
         = history c ++ [mkStep (current_state c) a (stack c) t]
  else snd r = c.
Proof.
  cbn zeta. unfold step. destruct (last (stack c)) as [top|] eqn:El;
    [|reflexivity].
  destruct (_find_transition c a top) as [t|] eqn:Ef; [|reflexivity].
  cbn [fst snd]. exists t.
  destruct (find_transition_Some _ _ _ _ Ef) as (_ & _ & _ & ->). auto.
Qed.

(** X4. The history determines the engine: for a configuration reached
    from [reset] by calls of [step], feeding the recorded inputs to a reset
    engine gives back that configuration, history included; and every
    entry holds a transition of the table that matches the state, the input
    and the top of the stack recorded with it. *)
Theorem history_replays_to_configuration (c : Configuration) :
  reachable c ->
  replay (reset c) (List.map h_input (history c)) = c
  /\ Forall (fun e =>
       In (h_transition e) transitions
       /\ matches (h_state e) (h_input e)
                  (List.last (h_stack_before e) "") (h_transition e) = true)
       (history c).
Proof.
  induction 1 as [c|c a _ [IHr IHf]].
  - split; [reflexivity | constructor].
  - pose proof (step_history c a) as H. cbn zeta in H.
    destruct (fst (step c a)).
    + destruct H as (t & Hf & Hl & Hh).
      change (reset (snd (step c a))) with (reset c).
      rewrite Hh. split.
      * rewrite map_app, replay_app, IHr. simpl.
        clear Hh. unfold step. rewrite Hl, Hf. reflexivity.
      * apply Forall_app. split; [exact IHf|]. constructor; [|constructor].
        destruct (find_transition_Some _ _ _ _ Hf) as (Hin & Hs & Hi & _).
        cbn [h_transition h_state h_input h_stack_before].
        split; [exact Hin|]. unfold matches.
        rewrite Hs, Hi, !String.eqb_refl. simpl.
        apply last_Some in Hl as [l' ->]. rewrite List.last_last.
        apply String.eqb_refl.
    + rewrite H. auto.
Qed.

Lemma history_replays_to_configuration_witness :
  let c := snd (step (snd (step (reset init) "R")) "Rh") in
  replay (reset c) (List.map h_input (history c)) = c.
Proof.
  apply (history_replays_to_configuration
           (snd (step (snd (step (reset init) "R")) "Rh"))).
  apply reach_step, reach_step, reach_reset.
Defined.

(** X5. A configuration reached from [reset] by calls of [step] is in one
    of the states of [PDA_STATES], its stack holds at most three symbols,
    all of [STACK_ALPHABET], and the sentinel occurs once, at the bottom. *)
Theorem reachable_within_config_alphabets (c : Configuration) :
  reachable c ->
  In (current_state c) PDA_STATES
  /\ length (stack c) <= 3
  /\ Forall (fun x => In x STACK_ALPHABET) (stack c)
  /\ exists above, stack c = "Z0" :: above /\ ~ In "Z0" above.
Proof.
  intros Hr. apply reachable_Inv in Hr. destruct c as [st stk h].
  shape_cases Hr; cbn [current_state stack];
    (split; [simpl; tauto|]); (split; [simpl; lia|]);
    (split; [repeat constructor; simpl; tauto|]);
    eexists; (split; [reflexivity|]); simpl; intuition discriminate.
Qed.

Lemma reachable_within_config_alphabets_witness :
  length (stack (snd (step (snd (step (reset init) "Rh")) "Rh"))) <= 3.
Proof.
  apply (reachable_within_config_alphabets
           (snd (step (snd (step (reset init) "Rh")) "Rh"))).
  apply reach_step, reach_step, reach_reset.
Defined.



Lemma process_loop_refused (s : list string) (a : string) (c : Configuration) :
  In a s -> ~ In a input_alphabet -> fst (process_loop c s) = false.
Proof.
  intros Hin Hn. revert c. induction s as [|b s IH]; intros c;
    [contradiction Hin|].
  simpl. destruct Hin as [->|Hin].
  - rewrite (step_outside_alphabet c a Hn). reflexivity.
  - destruct (step c b) as [ok c']. destruct ok; [apply IH, Hin|reflexivity].
Qed.

(** X7. A symbol that no transition of the table reads, such as P and PR
    of [TASK_ALPHABET] or any lead other than V1 to V6, is refused by
    [step] in every configuration, and a sequence that contains one is
    rejected by [process_sequence]. *)
Theorem unread_symbol_rejected (a : string) :
  ~ In a (List.map input_symbol transitions) ->
  (forall c, step c a = (false, c))
  /\ (forall c s, In a s -> fst (process_sequence c s) = false).
Proof.
  intros Hn. split.
  - intros c. apply step_outside_alphabet, Hn.
  - intros c s Hin. apply (process_loop_refused s a); assumption.
Qed.

Lemma unread_symbol_rejected_witness :
  fst (process_sequence init ["R"; "Rh"; "Ax"; "P"; "Q"; "ST"; "T"; "T"])
  = false.
Proof.
  apply (unread_symbol_rejected "P").
  - simpl. intuition discriminate.
  - simpl. tauto.
Defined.

(** ** More on the completer *)

Lemma rule_required_short (k : string) (rule : CompletionRule) :
  completion_rules !! k = Some rule -> length (required rule) <= 3.
Proof.
  unfold completion_rules, _define_completion_rules. intros H.
  repeat (apply lookup_insert_Some in H as [[_ <-]|[_ H]]; [simpl; lia|]).
  rewrite lookup_empty in H. discriminate H.
Qed.

Lemma add_required_replay (tasks : list string) (c : Configuration)
    (done : list string) :
  exists added,
    snd (add_required c done tasks) = done ++ added
    /\ fst (add_required c done tasks) = replay c added
    /\ length added <= length tasks.
Proof.
  revert c done. induction tasks as [|task rest IH]; intros c done; simpl.
  - exists []. rewrite app_nil_r. simpl. auto.
  - destruct (step c task) as [ok c1] eqn:E. destruct ok.
    + destruct (IH c1 (done ++ [task])) as (added & H1 & H2 & H3).
      exists (task :: added). rewrite H1, H2, <- app_assoc. simpl.
      rewrite E. simpl. repeat split. lia.
    + exists [task]. simpl. rewrite E. simpl. repeat split. lia.
Qed.

Lemma while_loop_replay (fuel : nat) (v v' : LoopVars) (e : LoopExit) :
  while_loop fuel v = Some (v', e) ->
  exists added,
    completion v' = completion v ++ added
    /\ pda v' = replay (pda v) added
    /\ iterations v <= iterations v'
    /\ length added <= 3 * (iterations v' - iterations v)
    /\ (iterations v <= max_iterations -> iterations v' <= max_iterations).
Proof.
  revert v. induction fuel as [|fuel IH]; intros v; simpl.
  - destruct (_ && _); [discriminate|]. intros [= <- <-].
    exists []. rewrite app_nil_r. simpl. repeat split; lia.
  - destruct (1 <? length (stack (pda v)))%nat; simpl;
      [|intros [= <- <-]; exists []; rewrite app_nil_r; simpl;
        repeat split; lia].
    destruct (iterations v <? max_iterations)%nat eqn:Elt;
      [|intros [= <- <-]; exists []; rewrite app_nil_r; simpl;
        repeat split; lia].
    apply Nat.ltb_lt in Elt.
    destruct (last (stack (pda v))) as [top|]; [|discriminate].
    destruct (completion_rules !! top) as [rule|] eqn:Er.
    + destruct (add_required_replay (required rule) (pda v) (completion v))
        as (added1 & H1 & H2 & H3).
      pose proof (rule_required_short _ _ Er) as Hlen.
      destruct (add_required _ _ _) as [c1 comp1]. simpl in H1, H2.
      intros H. apply IH in H as (added2 & G1 & G2 & G3 & G4 & G5).
      cbn [completion pda iterations] in *.
      exists (added1 ++ added2).
      rewrite G1, G2, H1, H2, <- app_assoc, replay_app, length_app.
      repeat split; lia.
    + intros [= <- <-]. cbn [completion pda iterations].
      exists []. rewrite app_nil_r. simpl. repeat split; lia.
Qed.

(** X8. From any configuration, reached by the engine or not, the
    synthesis loop returns: it runs at most 50 rounds and produces at most
    three symbols a round, so at most 150. *)
Theorem synthesis_bounded (c : Configuration) :
  exists v e,
    synthesis c = Some (v, e)
    /\ iterations v <= max_iterations
    /\ length (completion v) <= 3 * iterations v
    /\ length (completion v) <= 150.
Proof.
  destruct (synthesis_total c) as [[v e] H]. exists v, e.
  split; [exact H|]. apply while_loop_replay in H as (added & H1 & _ & _ & H4 & H5).
  cbn [completion pda iterations] in *. rewrite H1. simpl.
  unfold max_iterations in *. lia.
Qed.

(** X9. The engine the synthesis loop leaves behind is the engine it
    started from after a replay of the synthesised symbols, failed steps
    ignored: the symbols the engine refused are in the completion all the
    same. *)
Theorem synthesis_engine_is_replay (c : Configuration) (v : LoopVars)
    (e : LoopExit) :
  synthesis c = Some (v, e) -> pda v = replay c (completion v).
Proof.
  intros H. apply while_loop_replay in H as (added & H1 & H2 & _).
  cbn [completion pda] in *. rewrite H1. exact H2.
Qed.

Lemma synthesis_engine_is_replay_witness :
  exists v, synthesis (replay init ["R"]) = Some (v, ConditionFalse)
            /\ pda v = replay (replay init ["R"]) (completion v).
Proof.
  eexists. split; [vm_compute; reflexivity|].
  apply (synthesis_engine_is_replay _ _ ConditionFalse).
  vm_compute. reflexivity.
Defined.

(** What the loop does from each of the nine shapes: it empties the stack
    down to the sentinel with at most seven symbols; when something was
    above the sentinel the engine ends accepting, and the last symbol
    produced is an ST that the engine refused. *)
Lemma synthesis_by_shape (c : Configuration) :
  Inv c ->
  exists v,
    synthesis c = Some (v, ConditionFalse)
    /\ length (completion v) <= 7
    /\ stack (pda v) = ["Z0"]
    /\ (completion v = [] <-> stack c = ["Z0"])
    /\ (1 < length (stack c) ->
        accepts (pda v) = true
        /\ exists body, completion v = body ++ ["ST"]
                        /\ fst (process_loop c body) = true).
Proof.
  intros HI. destruct c as [st stk h].
  shape_cases HI;
    (eexists; split; [vm_compute; reflexivity|]);
    cbn [completion pda stack length];
    (split; [lia|]); (split; [reflexivity|]);
    (split; [split; intros; (reflexivity || discriminate)|]);
    intros Hlen; try (simpl in Hlen; lia);
    (split; [reflexivity|]).
  - exists ["Rh"; "Ax"; "Q"; "ST"; "T"; "Q"]. split; reflexivity.
  - exists ["Q"; "ST"; "T"; "Q"]. split; reflexivity.
  - exists ["ST"; "T"; "Q"]. split; reflexivity.
  - exists ["T"; "Q"]. split; reflexivity.
  - exists ["Q"]. split; reflexivity.
Qed.

Lemma synthesis_on_sentinel (c : Configuration) :
  stack c = ["Z0"] -> synthesis c = Some (mkVars c [] 0, ConditionFalse).
Proof.
  intros H. unfold synthesis, max_iterations. simpl. rewrite H. reflexivity.
Qed.

(** [complete_scanpath] returns the partial sequence with a short
    suffix and leaves the sentinel alone on the stack. *)
Lemma complete_scanpath_appends (c : Configuration) (partial : list string) :
  exists suffix c',
    complete_scanpath c partial = Some (partial ++ suffix, c')
    /\ length suffix <= 7
    /\ stack c' = ["Z0"].
Proof.
  unfold complete_scanpath.
  assert (HI : Inv (replay (reset c) partial))
    by apply replay_Inv, reset_Inv.
  destruct (accepts (replay (reset c) partial)) eqn:Hacc.
  - apply accepts_true in Hacc as [_ Hstk].
    exists [], (replay (reset c) partial). rewrite app_nil_r.
    repeat split; auto. simpl. lia.
  - destruct (synthesis_by_shape _ HI) as (v & Hs & Hlen & Hstk & _).
    unfold _generate_completion. rewrite Hs.
    exists (completion v), (pda v). auto.
Qed.

(** X10. [complete_scanpath] returns the partial sequence followed by at
    most seven symbols and leaves the engine with the sentinel alone on
    its stack; it appends nothing exactly when the replay of the partial
    sequence ends with the sentinel alone, whether the engine accepts there
    (state qEnd) or not (states qRate, qRhythm, qAxis). *)
Theorem complete_scanpath_suffix (c : Configuration) (partial : list string) :
  exists suffix c',
    complete_scanpath c partial = Some (partial ++ suffix, c')
    /\ length suffix <= 7
    /\ stack c' = ["Z0"]
    /\ (suffix = [] <-> stack (replay (reset c) partial) = ["Z0"]).
Proof.
  unfold complete_scanpath.
  assert (HI : Inv (replay (reset c) partial))
    by apply replay_Inv, reset_Inv.
  destruct (accepts (replay (reset c) partial)) eqn:Hacc.
  - apply accepts_true in Hacc as [_ Hstk].
    exists [], (replay (reset c) partial). rewrite app_nil_r.
    repeat split; auto. simpl. lia.
  - destruct (synthesis_by_shape _ HI) as (v & Hs & Hlen & Hstk & Hnil & _).
    unfold _generate_completion. rewrite Hs.
    exists (completion v), (pda v). auto.
Qed.

(** X11. [complete_scanpath] is idempotent: completing a sequence it has
    returned returns that sequence again. *)
Theorem complete_scanpath_idempotent
    (c c0 c' : Configuration) (partial out : list string) :
  complete_scanpath c partial = Some (out, c') ->
  exists c'', complete_scanpath c0 out = Some (out, c'').
Proof.
  unfold complete_scanpath.
  change (reset c0) with (reset c).
  assert (HI : Inv (replay (reset c) partial))
    by apply replay_Inv, reset_Inv.
  destruct (accepts (replay (reset c) partial)) eqn:Hacc.
  - intros [= <- <-]. rewrite Hacc. eexists. reflexivity.
  - destruct (synthesis_by_shape _ HI) as (v & Hs & _ & Hstk & _).
    unfold _generate_completion at 1. rewrite Hs. intros [= <- <-].
    assert (Hr : pda v = replay (replay (reset c) partial) (completion v)).
    { pose proof Hs as Hw. apply while_loop_replay in Hw
        as (added & H1 & H2 & _).
      cbn [completion pda] in *. rewrite H1. exact H2. }
    rewrite replay_app, <- Hr.
    destruct (accepts (pda v)); [eexists; reflexivity|].
    unfold _generate_completion. rewrite (synthesis_on_sentinel _ Hstk).
    cbn [completion pda]. rewrite app_nil_r. eexists. reflexivity.
Qed.

Lemma complete_scanpath_idempotent_witness :
  exists c'',
    complete_scanpath init ["R"; "Rh"; "Ax"; "Q"; "ST"; "T"; "Q"; "ST"]
    = Some (["R"; "Rh"; "Ax"; "Q"; "ST"; "T"; "Q"; "ST"], c'').
Proof.
  apply (complete_scanpath_idempotent init init
           (mkConfig "qEnd" ["Z0"]
              (history (replay init ["R"; "Rh"; "Ax"; "Q"; "ST"; "T"; "Q"])))
           ["R"]).
  vm_compute. reflexivity.
Defined.

Lemma all_steps_replay (c c' : Configuration) (s : list string) :
  all_steps c s c' -> replay c s = c'.
Proof.
  induction 1 as [c|c c1 c2 a s Hst _ IH]; [reflexivity|].
  simpl. rewrite Hst. exact IH.
Qed.

(** X12. When every step of the partial sequence succeeds and leaves
    something above the sentinel, [complete_scanpath] leaves the engine
    accepting, but the sequence it returns ends with an ST that the engine
    refused: [validate_completion] rejects the returned sequence and
    accepts it without its last symbol. *)
Theorem completion_all_but_last_accepted
    (c c1 c' : Configuration) (partial out : list string) :
  all_steps (reset c) partial c1 ->
  1 < length (stack c1) ->
  complete_scanpath c partial = Some (out, c') ->
  accepts c' = true
  /\ List.last out "" = "ST"
  /\ fst (validate_completion c' out) = false
  /\ fst (validate_completion c' (removelast out)) = true.
Proof.
  intros Hall Hlen Hc.
  pose proof (all_steps_replay _ _ _ Hall) as Hr.
  pose proof (all_steps_Inv _ _ _ Hall (reset_Inv c)) as HI.
  destruct (complete_scanpath_result c partial)
    as (out' & c2 & Hc' & _ & Hrej).
  rewrite Hc in Hc'. injection Hc' as <- <-.
  assert (Hacc : accepts c1 = false).
  { apply not_true_iff_false. intros H.
    apply accepts_true in H as [_ H]. rewrite H in Hlen.
    simpl in Hlen. lia. }
  rewrite Hr in Hrej. destruct (Hrej Hacc) as (v & Hs & _ & _ & Hout & Hv).
  destruct (synthesis_by_shape _ HI) as (v' & Hs' & _ & _ & _ & Hbody).
  rewrite Hs in Hs'. injection Hs' as <-.
  destruct (Hbody Hlen) as (Hacc' & body & Hcomp & Hok).
  unfold complete_scanpath in Hc. rewrite Hr, Hacc in Hc.
  unfold _generate_completion in Hc. rewrite Hs in Hc.
  injection Hc as _ <-.
  split; [exact Hacc'|]. rewrite Hout, Hcomp, app_assoc.
  split; [apply List.last_last|]. split.
  - rewrite <- app_assoc, <- Hcomp, <- Hout. exact Hv.
  - rewrite removelast_last.
    unfold validate_completion, process_sequence.
    change (reset (reset (pda v))) with (reset c).
    rewrite (process_loop_app_ok _ _ _ _ Hall). exact Hok.
Qed.

Lemma completion_all_but_last_accepted_witness :
  exists out c',
    complete_scanpath init ["R"] = Some (out, c')
    /\ fst (validate_completion c' out) = false
    /\ fst (validate_completion c' (removelast out)) = true.
Proof.
  eexists _, _. split; [vm_compute; reflexivity|].
  refine (let H := completion_all_but_last_accepted init
                     (snd (step (reset init) "R")) _ ["R"] _ _ _ _ in
          conj (proj1 (proj2 (proj2 H))) (proj2 (proj2 (proj2 H)))).
  - econstructor; [reflexivity | constructor].
  - simpl. lia.
  - vm_compute. reflexivity.
Defined.

(** ** task_inference.py *)

Lemma add_once_In (x y : string) (ts : list string) :
  In y (add_once x ts) <-> In y ts \/ y = x.
Proof.
  unfold add_once. destruct (PyStr.mem x ts) eqn:E.
  - apply mem_In in E. split; [auto | intros [H| ->]; assumption].
  - rewrite in_app_iff. simpl. intuition.
Qed.

Lemma add_once_cases (x : string) (ts : list string) :
  (In x ts /\ add_once x ts = ts)
  \/ (~ In x ts /\ add_once x ts = ts ++ [x]).
Proof.
  unfold add_once. destruct (PyStr.mem x ts) eqn:E.
  - left. apply mem_In in E. auto.
  - right. split; [|reflexivity]. intros H. apply mem_In in H.
    rewrite H in E. discriminate E.
Qed.

(** The loop of [infer_tasks] keeps what holds of the empty list and is
    kept by every round. *)
Lemma infer_tasks_ind (ls : list string) (P : nat -> list string -> Prop) :
  P 0 [] ->
  (forall k lead ts, ls !! k = Some lead -> P k ts ->
                     P (S k) (infer_step ls ts k)) ->
  P (length ls) (infer_tasks ls).
Proof.
  intros H0 Hstep. unfold infer_tasks.
  assert (G : forall n, n <= length ls ->
                        P n (fold_left (infer_step ls) (seq 0 n) [])).
  { induction n as [|n IH]; intros Hn; [exact H0|].
    rewrite seq_S, fold_left_app. simpl.
    destruct (lookup_lt_is_Some_2 ls n) as [lead Hl]; [lia|].
    apply (Hstep n lead); [exact Hl | apply IH; lia]. }
  apply G. lia.
Qed.

Lemma is_after_qrs_Q (ts : list string) :
  In "Q" ts -> _is_after_qrs ts = true.
Proof.
  intros H. unfold _is_after_qrs. apply mem_In in H. rewrite H. reflexivity.
Qed.

(** The four ways through one round of the loop. *)
Lemma infer_step_cases (ls ts : list string) (k : nat) (lead : string) :
  ls !! k = Some lead ->
  ((lead = "II" \/ lead = "RHYTHM")
   /\ infer_step ls ts k = add_once "Rh" (add_once "R" ts))
  \/ (axis_at ls k lead = true /\ (lead = "I" \/ lead = "aVF")
      /\ infer_step ls ts k = add_once "Ax" ts)
  \/ (In lead precordial
      /\ infer_step ls ts k
         = add_once "T" (add_once "ST"
             (if (2 <=? _count_consecutive_precordial ls k)%nat
              then add_once "Q" ts ++ ["Detail"] else add_once "Q" ts)))
  \/ (lead <> "II" /\ lead <> "RHYTHM" /\ axis_at ls k lead = false
      /\ ~ In lead precordial /\ infer_step ls ts k = ts).
Proof.
  intros Hl. unfold infer_step. rewrite Hl.
  destruct (PyStr.mem lead ["II"; "RHYTHM"]) eqn:E1.
  { left. apply mem_In in E1. simpl in E1. intuition. }
  assert (N1 : ~ In lead ["II"; "RHYTHM"]).
  { intros H. apply mem_In in H. rewrite H in E1. discriminate. }
  fold (axis_at ls k lead). destruct (axis_at ls k lead) eqn:E2.
  { right. left. split; [reflexivity|]. split; [|reflexivity].
    unfold axis_at in E2. apply andb_true_iff in E2 as [_ E2].
    apply orb_true_iff in E2 as [E2|E2].
    - apply andb_true_iff in E2 as [E2 _]. apply String.eqb_eq in E2. auto.
    - apply andb_true_iff in E2 as [E2 _]. apply andb_true_iff in E2 as [E2 _].
      apply String.eqb_eq in E2. auto. }
  destruct (PyStr.mem lead precordial) eqn:E3.
  - right. right. left. split; [apply mem_In, E3|].
    cbn zeta. rewrite is_after_qrs_Q; [reflexivity|].
    destruct (2 <=? _)%nat; [apply in_app_iff; left|]; apply add_once_In; auto.
  - right. right. right. simpl in N1.
    split; [intros ->; tauto|]. split; [intros ->; tauto|].
    split; [reflexivity|]. split; [|reflexivity].
    intros H. apply mem_In in H. rewrite H in E3. discriminate.
Qed.

Lemma precordial_names (lead : string) :
  In lead precordial ->
  lead <> "II" /\ lead <> "RHYTHM" /\ lead <> "I" /\ lead <> "aVF".
Proof.
  intros H. simpl in H.
  repeat (destruct H as [<-|H]; [repeat split; discriminate|]).
  contradiction.
Qed.

(** Membership after one round. *)
Lemma infer_step_In (ls ts : list string) (k : nat) (lead y : string) :
  ls !! k = Some lead ->
  In y (infer_step ls ts k) <->
  In y ts
  \/ ((lead = "II" \/ lead = "RHYTHM") /\ (y = "R" \/ y = "Rh"))
  \/ (axis_at ls k lead = true /\ y = "Ax")
  \/ (In lead precordial
      /\ (y = "Q" \/ y = "ST" \/ y = "T"
          \/ (y = "Detail" /\ 2 <= _count_consecutive_precordial ls k))).
Proof.
  intros Hl.
  destruct (infer_step_cases ls ts k lead Hl)
    as [(H1 & ->) | [(H1 & H2 & ->) | [(H1 & ->) | (H1 & H2 & H3 & H4 & ->)]]].
  - rewrite !add_once_In. split; [tauto|].
    intros [H|[H|[[Ha _]|[Hp _]]]]; try tauto.
    + unfold axis_at in Ha. destruct H1 as [-> | ->];
        simpl in Ha; rewrite andb_false_r in Ha; discriminate Ha.
    + apply precordial_names in Hp. tauto.
  - rewrite add_once_In. split; [tauto|].
    intros [H|[[Hr _]|[H|[Hp _]]]]; try tauto.
    + destruct H2 as [-> | ->], Hr as [Hr|Hr]; discriminate Hr.
    + apply precordial_names in Hp. tauto.
  - pose proof (precordial_names _ H1) as (N1 & N2 & N3 & N4).
    rewrite !add_once_In.
    destruct (2 <=? _count_consecutive_precordial ls k)%nat eqn:E.
    + apply Nat.leb_le in E. rewrite in_app_iff, add_once_In. simpl.
      split; [intuition|].
      intros [H|[[Hr _]|[[Ha _]|[_ H]]]]; try tauto.
      * unfold axis_at in Ha. apply andb_true_iff in Ha as [_ Ha].
        apply orb_true_iff in Ha as [Ha|Ha];
          repeat (apply andb_true_iff in Ha as [Ha _]);
          apply String.eqb_eq in Ha; tauto.
      * intuition.
    + apply Nat.leb_gt in E. rewrite add_once_In.
      split; [intuition|].
      intros [H|[[Hr _]|[[Ha _]|[_ H]]]]; try tauto.
      * unfold axis_at in Ha. apply andb_true_iff in Ha as [_ Ha].
        apply orb_true_iff in Ha as [Ha|Ha];
          repeat (apply andb_true_iff in Ha as [Ha _]);
          apply String.eqb_eq in Ha; tauto.
      * destruct H as [H|[H|[H|[_ H]]]]; try tauto. lia.
  - split; [tauto|].
    intros [H|[[Hr _]|[[Ha _]|[Hp _]]]]; try tauto. congruence.
Qed.

Lemma lookup_below_S (ls : list string) (k : nat) (leadk : string)
    (Q : string -> Prop) :
  ls !! k = Some leadk ->
  (exists i lead, i < S k /\ ls !! i = Some lead /\ Q lead)
  <-> (exists i lead, i < k /\ ls !! i = Some lead /\ Q lead) \/ Q leadk.
Proof.
  intros Hk. split.
  - intros (i & lead & Hi & Hl & HQ).
    destruct (Nat.eq_dec i k) as [->|Hne].
    + right. rewrite Hk in Hl. injection Hl as <-. exact HQ.
    + left. exists i, lead. repeat split; [lia | assumption | assumption].
  - intros [(i & lead & Hi & Hl & HQ) | HQ].
    + exists i, lead. repeat split; [lia | assumption | assumption].
    + exists k, leadk. repeat split; [lia | assumption | assumption].
Qed.

Lemma lookup_below_length (ls : list string) (Q : string -> Prop) :
  (exists i lead, i < length ls /\ ls !! i = Some lead /\ Q lead)
  <-> (exists lead, In lead ls /\ Q lead).
Proof.
  split.
  - intros (i & lead & _ & Hl & HQ). exists lead. split; [|exact HQ].
    apply list_elem_of_In, list_elem_of_lookup. exists i. exact Hl.
  - intros (lead & Hin & HQ).
    apply list_elem_of_In, list_elem_of_lookup in Hin as [i Hl].
    exists i, lead. split; [|auto]. apply lookup_lt_Some in Hl. exact Hl.
Qed.

(** Membership after one round, symbol by symbol. *)
Lemma infer_step_In_R (ls ts : list string) (k : nat) (lead : string) :
  ls !! k = Some lead ->
  In "R" (infer_step ls ts k)
  <-> In "R" ts \/ lead = "II" \/ lead = "RHYTHM".
Proof.
  intros Hl. rewrite (infer_step_In ls ts k lead "R" Hl).
  intuition congruence.
Qed.

Lemma infer_step_In_Rh (ls ts : list string) (k : nat) (lead : string) :
  ls !! k = Some lead ->
  In "Rh" (infer_step ls ts k)
  <-> In "Rh" ts \/ lead = "II" \/ lead = "RHYTHM".
Proof.
  intros Hl. rewrite (infer_step_In ls ts k lead "Rh" Hl).
  intuition congruence.
Qed.

Lemma infer_step_In_Q (ls ts : list string) (k : nat) (lead : string) :
  ls !! k = Some lead ->
  In "Q" (infer_step ls ts k) <-> In "Q" ts \/ In lead precordial.
Proof.
  intros Hl. rewrite (infer_step_In ls ts k lead "Q" Hl).
  intuition congruence.
Qed.

Lemma infer_step_In_ST (ls ts : list string) (k : nat) (lead : string) :
  ls !! k = Some lead ->
  In "ST" (infer_step ls ts k) <-> In "ST" ts \/ In lead precordial.
Proof.
  intros Hl. rewrite (infer_step_In ls ts k lead "ST" Hl).
  intuition congruence.
Qed.

Lemma infer_step_In_T (ls ts : list string) (k : nat) (lead : string) :
  ls !! k = Some lead ->
  In "T" (infer_step ls ts k) <-> In "T" ts \/ In lead precordial.
Proof.
  intros Hl. rewrite (infer_step_In ls ts k lead "T" Hl).
  intuition congruence.
Qed.

Lemma infer_step_In_Ax (ls ts : list string) (k : nat) (lead : string) :
  ls !! k = Some lead ->
  In "Ax" (infer_step ls ts k) <-> In "Ax" ts \/ axis_at ls k lead = true.
Proof.
  intros Hl. rewrite (infer_step_In ls ts k lead "Ax" Hl).
  intuition congruence.
Qed.

Lemma infer_step_In_Detail (ls ts : list string) (k : nat) (lead : string) :
  ls !! k = Some lead ->
  In "Detail" (infer_step ls ts k)
  <-> In "Detail" ts
      \/ (In lead precordial /\ 2 <= _count_consecutive_precordial ls k).
Proof.
  intros Hl. rewrite (infer_step_In ls ts k lead "Detail" Hl).
  intuition congruence.
Qed.

(** X13. What [infer_tasks] reports follows from the leads present: R and
    Rh are both reported when lead II or the rhythm strip occurs and
    neither otherwise; Q, ST and T are all three reported when some
    precordial lead V1 to V6 occurs and none otherwise, so ST and T never
    need a fixation of their own. *)
Theorem infer_tasks_by_lead_class (ls : list string) :
  let out := infer_tasks ls in
  (In "R" out <-> In "II" ls \/ In "RHYTHM" ls)
  /\ (In "Rh" out <-> In "R" out)
  /\ (In "Q" out <-> exists lead, In lead ls /\ In lead precordial)
  /\ (In "ST" out <-> In "Q" out)
  /\ (In "T" out <-> In "Q" out).
Proof.
  cbn zeta.
  pose (P := fun (k : nat) (ts : list string) =>
    (In "R" ts <-> exists i lead, i < k /\ ls !! i = Some lead
                                  /\ (lead = "II" \/ lead = "RHYTHM"))
    /\ (In "Rh" ts <-> In "R" ts)
    /\ (In "Q" ts <-> exists i lead, i < k /\ ls !! i = Some lead
                                     /\ In lead precordial)
    /\ (In "ST" ts <-> In "Q" ts)
    /\ (In "T" ts <-> In "Q" ts)).
  assert (HP : P (length ls) (infer_tasks ls)).
  { apply infer_tasks_ind; unfold P.
    - simpl. repeat split; try tauto; intros (i & ? & Hi & _); lia.
    - intros k lead ts Hl (IR & IRh & IQ & IST & IT).
      rewrite (infer_step_In_R ls ts k lead Hl),
              (infer_step_In_Rh ls ts k lead Hl),
              (infer_step_In_Q ls ts k lead Hl),
              (infer_step_In_ST ls ts k lead Hl),
              (infer_step_In_T ls ts k lead Hl).
      rewrite !(lookup_below_S ls k lead _ Hl), <- IR, <- IQ.
      tauto. }
  destruct HP as (IR & IRh & IQ & IST & IT).
  rewrite lookup_below_length in IR, IQ.
  split; [|tauto]. rewrite IR. split.
  - intros (lead & Hin & [-> | ->]); auto.
  - intros [H|H]; eexists; eauto.
Qed.

Lemma lead_is_Some (ls : list string) (i : nat) (name : string) :
  lead_is ls i name = true <-> ls !! i = Some name.
Proof.
  unfold lead_is. destruct (ls !! i) as [lead|].
  - rewrite String.eqb_eq. split; [intros ->; reflexivity | intros [= ->]; auto].
  - split; discriminate.
Qed.

(** The axis test holds at index [k] when I at [k] is followed by aVF, or
    when aVF at [k], not the last lead, follows I. *)
Lemma axis_at_iff (ls : list string) (k : nat) (lead : string) :
  axis_at ls k lead = true <->
  S k < length ls
  /\ ((lead = "I" /\ ls !! S k = Some "aVF")
      \/ (lead = "aVF" /\ exists j, k = S j /\ ls !! j = Some "I")).
Proof.
  unfold axis_at.
  rewrite andb_true_iff, orb_true_iff, !andb_true_iff, !String.eqb_eq,
    !lead_is_Some, !Nat.ltb_lt.
  replace (k + 1) with (S k) by lia.
  split.
  - intros [Hk [[-> Hn]|[[-> Hp] Hi]]].
    + split; [lia | auto].
    + split; [lia|]. right. split; [reflexivity|].
      destruct k as [|j]; [lia|]. exists j.
      replace (S j - 1) with j in Hi by lia. auto.
  - intros [Hk [[-> Hn]|[-> (j & -> & Hj)]]].
    + split; [lia | auto].
    + split; [lia|]. right. replace (S j - 1) with j by lia.
      repeat split; [lia | exact Hj].
Qed.

(** Two or more precordial leads in a row from index [k]: the lead at
    [k + 1] is precordial too. *)
Lemma count_at_least_two (ls : list string) (k : nat) (lead : string) :
  ls !! k = Some lead -> In lead precordial ->
  2 <= _count_consecutive_precordial ls k
  <-> exists next, ls !! S k = Some next /\ In next precordial.
Proof.
  intros Hl Hp. unfold _count_consecutive_precordial.
  rewrite (drop_S _ _ _ Hl). cbn [count_run].
  apply mem_In in Hp. rewrite Hp.
  destruct (ls !! S k) as [next|] eqn:En.
  - rewrite (drop_S _ _ _ En). cbn [count_run].
    destruct (PyStr.mem next precordial) eqn:Em.
    + split; [|lia]. intros _. exists next. split; [auto | apply mem_In, Em].
    + split; [lia|]. intros (n' & [= <-] & Hn). apply mem_In in Hn.
      rewrite Hn in Em. discriminate Em.
  - rewrite drop_ge by (apply lookup_ge_None; exact En). cbn [count_run].
    split; [lia|]. intros (n' & Hn & _). discriminate Hn.
Qed.

(** X14. [infer_tasks] reports Ax exactly when lead I is immediately
    followed by lead aVF somewhere in the sequence, and Detail exactly when
    two precordial leads follow each other; aVF before I, or I and aVF
    apart, does not give Ax. *)
Theorem infer_tasks_by_adjacent_leads (ls : list string) :
  let out := infer_tasks ls in
  (In "Ax" out <->
   exists i, ls !! i = Some "I" /\ ls !! S i = Some "aVF")
  /\ (In "Detail" out <->
      exists i a b, ls !! i = Some a /\ ls !! S i = Some b
                    /\ In a precordial /\ In b precordial).
Proof.
  cbn zeta.
  pose (P := fun (k : nat) (ts : list string) =>
    (In "Ax" ts <->
     exists i, i < k /\ ls !! i = Some "I" /\ ls !! S i = Some "aVF")
    /\ (In "Detail" ts <->
        exists i a b, i < k /\ ls !! i = Some a /\ ls !! S i = Some b
                      /\ In a precordial /\ In b precordial)).
  assert (HP : P (length ls) (infer_tasks ls)).
  { apply infer_tasks_ind; unfold P.
    - simpl. split; (split; [tauto|]).
      + intros (i & Hi & _). lia.
      + intros (i & a & b & Hi & _). lia.
    - intros k lead ts Hl (IA & ID).
      rewrite (infer_step_In_Ax ls ts k lead Hl),
              (infer_step_In_Detail ls ts k lead Hl), IA, ID, axis_at_iff.
      split; split.
      + intros [(i & Hi & H)|[Hk [[-> Hn]|[-> (j & -> & Hj)]]]].
        * exists i. split; [lia | exact H].
        * exists k. auto.
        * exists j. auto.
      + intros (i & Hi & H1 & H2).
        destruct (Nat.eq_dec i k) as [->|Hne].
        * right. rewrite Hl in H1. injection H1 as ->.
          split; [apply lookup_lt_Some in H2; exact H2 | auto].
        * left. exists i. split; [lia | auto].
      + intros [(i & a & b & Hi & H)|[Hp Hc]].
        * exists i, a, b. split; [lia | exact H].
        * apply (count_at_least_two ls k lead Hl Hp) in Hc as (b & Hb & Hpb).
          exists k, lead, b. auto.
      + intros (i & a & b & Hi & H1 & H2 & Ha & Hb).
        destruct (Nat.eq_dec i k) as [->|Hne].
        * right. rewrite Hl in H1. injection H1 as ->. split; [exact Ha|].
          apply (count_at_least_two ls k a Hl Ha). exists b. auto.
        * left. exists i, a, b. split; [lia | auto]. }
  destruct HP as (IA & ID). rewrite IA, ID. split; split.
  - intros (i & _ & H). exists i. exact H.
  - intros (i & H1 & H2). exists i. split; [|auto].
    apply lookup_lt_Some in H1. exact H1.
  - intros (i & a & b & _ & H). exists i, a, b. exact H.
  - intros (i & a & b & H1 & H). exists i, a, b. split; [|auto].
    apply lookup_lt_Some in H1. exact H1.
Qed.

Lemma nodup_add_once (x : string) (ts : list string) :
  NoDup (List.filter not_detail ts) ->
  NoDup (List.filter not_detail (add_once x ts)).
Proof.
  intros H. destruct (add_once_cases x ts) as [[_ ->]|[Hn ->]]; [exact H|].
  rewrite List.filter_app. simpl. destruct (not_detail x); simpl.
  - apply NoDup_app. split; [exact H|]. split; [|apply NoDup_singleton].
    intros y Hy. apply list_elem_of_In, List.filter_In in Hy as [Hy _].
    intros Hx. apply list_elem_of_In in Hx. simpl in Hx.
    destruct Hx as [<-|[]]. exact (Hn Hy).
  - rewrite app_nil_r. exact H.
Qed.

Lemma nodup_detail (ts : list string) :
  NoDup (List.filter not_detail ts) ->
  NoDup (List.filter not_detail (ts ++ ["Detail"])).
Proof.
  intros H. rewrite List.filter_app. simpl. rewrite app_nil_r. exact H.
Qed.

Lemma Q_before_T_snoc (x : string) (ts : list string) :
  Q_before_T ts -> (x = "T" -> In "Q" ts) -> Q_before_T (ts ++ [x]).
Proof.
  intros H Hx pre post Heq. destruct post as [|z post] using rev_ind.
  - apply app_inj_tail in Heq as [-> ->]. apply Hx. reflexivity.
  - clear IHpost. change (pre ++ "T" :: post ++ [z])
      with (pre ++ ("T" :: post) ++ [z]) in Heq.
    rewrite app_assoc in Heq. apply app_inj_tail in Heq as [Heq _].
    exact (H pre post Heq).
Qed.

Lemma Q_before_T_add_once (x : string) (ts : list string) :
  Q_before_T ts -> (x = "T" -> In "Q" ts) -> Q_before_T (add_once x ts).
Proof.
  intros H Hx. destruct (add_once_cases x ts) as [[_ ->]|[_ ->]];
    [exact H | apply Q_before_T_snoc; assumption].
Qed.

(** Alphabet, uniqueness and order of the inferred tasks. *)
Lemma infer_tasks_invariants (ls : list string) :
  (forall y, In y (infer_tasks ls) -> In y inferred_alphabet)
  /\ NoDup (List.filter not_detail (infer_tasks ls))
  /\ Q_before_T (infer_tasks ls).
Proof.
  pose (P := fun (k : nat) (ts : list string) =>
    (forall y, In y ts -> In y inferred_alphabet)
    /\ NoDup (List.filter not_detail ts)
    /\ Q_before_T ts).
  assert (HP : P (length ls) (infer_tasks ls)).
  { apply infer_tasks_ind; unfold P.
    - split; [intros y []|]. split; [apply NoDup_nil_2|].
      intros pre post H. destruct pre; discriminate H.
    - intros k lead ts Hl (IA & IN & IQ). split.
      + intros y Hy. apply (infer_step_In ls ts k lead y Hl) in Hy.
        destruct Hy as [Hy|[[_ [-> | ->]]|[[_ ->]|[_ [->|[->|[->|[-> _]]]]]]]];
          [apply IA, Hy | simpl; tauto ..].
      + destruct (infer_step_cases ls ts k lead Hl)
          as [(_ & ->) | [(_ & _ & ->) | [(_ & ->) | (_ & _ & _ & _ & ->)]]].
        * split; [apply nodup_add_once, nodup_add_once, IN|].
          apply Q_before_T_add_once; [|discriminate].
          apply Q_before_T_add_once; [exact IQ | discriminate].
        * split; [apply nodup_add_once, IN|].
          apply Q_before_T_add_once; [exact IQ | discriminate].
        * assert (HQ : In "Q" (add_once "Q" ts))
            by (apply add_once_In; auto).
          assert (QQ : Q_before_T (add_once "Q" ts))
            by (apply Q_before_T_add_once; [exact IQ | discriminate]).
          destruct (2 <=? _count_consecutive_precordial ls k)%nat.
          -- split.
             ++ apply nodup_add_once, nodup_add_once, nodup_detail,
                  nodup_add_once, IN.
             ++ apply Q_before_T_add_once.
                ** apply Q_before_T_add_once; [|discriminate].
                   apply Q_before_T_snoc; [exact QQ | discriminate].
                ** intros _. apply add_once_In. left.
                   apply in_app_iff. left. exact HQ.
          -- split.
             ++ apply nodup_add_once, nodup_add_once, nodup_add_once, IN.
             ++ apply Q_before_T_add_once.
                ** apply Q_before_T_add_once; [exact QQ | discriminate].
                ** intros _. apply add_once_In. left. exact HQ.
        * split; assumption. }
  exact HP.
Qed.

(** X15. [infer_tasks] only produces the symbols R, Rh, Ax, Q, Detail, ST
    and T, never P, PR or QT; every symbol other than Detail occurs at
    most once; and T occurs only after Q. *)
Theorem infer_tasks_shape (ls : list string) :
  let out := infer_tasks ls in
  (forall y, In y out -> In y ["R"; "Rh"; "Ax"; "Q"; "Detail"; "ST"; "T"])
  /\ List.NoDup (List.filter not_detail out)
  /\ (forall pre post, out = pre ++ "T" :: post -> In "Q" pre).
Proof.
  cbn zeta. destruct (infer_tasks_invariants ls) as (HA & HN & HQ).
  split; [exact HA|]. split; [apply NoDup_ListNoDup, HN|].
  intros pre post Heq. exact (HQ pre post Heq).
Qed.

(** ** The inferred tasks on the engine *)

(** When the engine is accepting after [process_sequence], the symbols it
    consumed end with T or QT followed by T or Q. *)
Lemma accepting_after_run (c : Configuration) (s : list string) :
  accepts (snd (process_sequence c s)) = true ->
  exists s' x y rest, s = s' ++ x :: y :: rest
                      /\ (x = "T" \/ x = "QT") /\ (y = "T" \/ y = "Q").
Proof.
  intros Hacc. unfold process_sequence in Hacc.
  destruct (process_loop_cases s (reset c))
    as [(c1 & Hs & Hp) | (pre & a & post & c1 & -> & Hs & _ & Hp)];
    rewrite Hp in Hacc; cbn [snd] in Hacc;
    destruct (run_into_accepting c c1 _ Hs Hacc)
      as (s' & x & y & -> & Hx & Hy).
  - exists s', x, y, []. auto.
  - exists s', x, y, (a :: post). rewrite <- app_assoc. auto.
Qed.

(** The inferred tasks never bring the engine to acceptance. *)
Lemma inferred_tasks_rejected (c : Configuration) (ls : list string) :
  accepts (snd (process_sequence c (infer_tasks ls))) = false.
Proof.
  apply not_true_iff_false. intros Hacc.
  apply accepting_after_run in Hacc as (s' & x & y & rest & Heq & Hx & Hy).
  destruct (infer_tasks_invariants ls) as (HA & HN & HQ).
  apply NoDup_ListNoDup in HN.
  destruct Hx as [-> | ->].
  - destruct Hy as [-> | ->].
    + rewrite Heq, List.filter_app in HN. simpl in HN.
      apply List.NoDup_remove_2 in HN. apply HN.
      apply in_app_iff. right. simpl. auto.
    + pose proof (HQ s' ("Q" :: rest) Heq) as HQs.
      apply in_split in HQs as (s1 & s2 & ->).
      rewrite Heq, <- app_assoc in HN. simpl in HN.
      rewrite List.filter_app in HN. simpl in HN.
      apply List.NoDup_remove_2 in HN. apply HN.
      apply in_app_iff. right. apply List.filter_In.
      split; [|reflexivity].
      apply in_app_iff. right. simpl. auto.
  - assert (HI : In "QT" (infer_tasks ls))
      by (rewrite Heq; apply in_app_iff; right; simpl; auto).
    apply HA in HI. simpl in HI. intuition discriminate.
Qed.

(** X16. The engine never accepts what [infer_tasks] produces: for every
    lead sequence [process_sequence] returns false on the inferred tasks
    and [accepts] is false afterwards, because acceptance needs T or QT
    followed by another T or Q, and the inferred tasks hold one T, after
    the one Q, and no QT. *)
Theorem inferred_tasks_never_accepted (c : Configuration) (ls : list string) :
  let r := process_sequence c (infer_tasks ls) in
  fst r = false /\ accepts (snd r) = false.
Proof.
  cbn zeta. pose proof (inferred_tasks_rejected c ls) as Hn.
  split; [|exact Hn].
  apply not_true_iff_false. intros Ht. unfold process_sequence in *.
  destruct (process_loop_true _ _ Ht) as (c' & _ & Hacc & Hp).
  rewrite Hp in Hn. cbn [snd] in Hn. rewrite Hacc in Hn. discriminate Hn.
Qed.


(** ** aoi_mapper.py *)

Lemma map_to_aoi_Some (m : list (string * Area)) (px py : Q) (lead : string) :
  map_to_aoi m px py = Some lead ->
  exists area, In (lead, area) m /\ inside px py area = true.
Proof.
  induction m as [|[l a] m IH]; simpl; [discriminate|].
  destruct (inside px py a) eqn:E.
  - intros [= ->]. exists a. auto.
  - intros H. destruct (IH H) as (area & Hin & Hi). exists area. auto.
Qed.

Lemma map_to_aoi_None (m : list (string * Area)) (px py : Q) :
  map_to_aoi m px py = None <->
  forall lead area, In (lead, area) m -> inside px py area = false.
Proof.
  induction m as [|[l a] m IH]; simpl.
  - split; [intros _ ? ? [] | reflexivity].
  - destruct (inside px py a) eqn:E.
    + split; [discriminate|]. intros H. rewrite (H l a) in E; [discriminate|auto].
    + rewrite IH. split.
      * intros H lead area [[= <- <-]|Hin]; [exact E | exact (H _ _ Hin)].
      * intros H lead area Hin. apply (H lead area). auto.
Qed.

Lemma insert_by_timestamp_length (f : Fixation) (l : list Fixation) :
  length (insert_by_timestamp f l) = S (length l).
Proof.
  induction l as [|g l IH]; simpl; [reflexivity|].
  destruct (Qle_bool _ _); simpl; [reflexivity | rewrite IH; reflexivity].
Qed.

Lemma sorted_by_timestamp_length (l : list Fixation) :
  length (sorted_by_timestamp l) = length l.
Proof.
  induction l as [|f l IH]; simpl; [reflexivity|].
  rewrite insert_by_timestamp_length, IH. reflexivity.
Qed.

(** One fixation leaves the lead sequence as it is or appends a lead of
    the map that differs from the last one. *)
Lemma add_fixation_cases (m : list (string * Area)) (d : Q)
    (ls : list string) (f : Fixation) :
  add_fixation m d ls f = ls
  \/ exists lead area,
       add_fixation m d ls f = ls ++ [lead]
       /\ In (lead, area) m
       /\ inside (x f) (y f) area = true
       /\ Qle_bool d (duration f) = true
       /\ forall previous, last ls = Some previous -> previous <> lead.
Proof.
  unfold add_fixation, Qlt_bool.
  destruct (Qle_bool d (duration f)) eqn:Ed; simpl; [|left; reflexivity].
  destruct (map_to_aoi m (x f) (y f)) as [lead|] eqn:Em; [|left; reflexivity].
  apply map_to_aoi_Some in Em as (area & Hin & Hi).
  destruct (last ls) as [previous|] eqn:El.
  - destruct (String.eqb previous lead) eqn:Eq; simpl; [left; reflexivity|].
    right. exists lead, area. repeat split; auto.
    intros p [= <-]. apply String.eqb_neq, Eq.
  - right. exists lead, area. repeat split; auto; discriminate.
Qed.

(** X17. The lead sequence of [convert_fixations_to_lead_sequence] never
    holds the same lead twice in a row, holds only leads of the map, and is
    no longer than the list of fixations. *)
Theorem lead_sequence_well_formed (m : list (string * Area))
    (fixations : list Fixation) (min_duration : Q) :
  let out := convert_fixations_to_lead_sequence m fixations min_duration in
  (forall i a b, out !! i = Some a -> out !! S i = Some b -> a <> b)
  /\ (forall lead, In lead out -> In lead (List.map fst m))
  /\ length out <= length fixations.
Proof.
  cbn zeta. unfold convert_fixations_to_lead_sequence.
  rewrite <- (sorted_by_timestamp_length fixations).
  generalize (sorted_by_timestamp fixations) as fs. intros fs.
  assert (G : forall acc : list string,
    (forall i a b, acc !! i = Some a -> acc !! S i = Some b -> a <> b) ->
    (forall lead, In lead acc -> In lead (List.map fst m)) ->
    let out := fold_left (add_fixation m min_duration) fs acc in
    (forall i a b, out !! i = Some a -> out !! S i = Some b -> a <> b)
    /\ (forall lead, In lead out -> In lead (List.map fst m))
    /\ length out <= length acc + length fs).
  { induction fs as [|f fs IH]; intros acc H1 H2; cbn zeta; simpl.
    - repeat split; auto. lia.
    - destruct (add_fixation_cases m min_duration acc f)
        as [-> | (lead & area & -> & Hin & _ & _ & Hp)].
      + destruct (IH acc H1 H2) as (G1 & G2 & G3). repeat split; auto. lia.
      + destruct (IH (acc ++ [lead])) as (G1 & G2 & G3).
        * intros i a b Ha Hb.
          destruct (Nat.lt_ge_cases (S i) (length acc)) as [Hlt|Hge].
          -- rewrite lookup_app_l in Ha, Hb by lia. exact (H1 i a b Ha Hb).
          -- assert (Hi : S i = length acc).
             { apply lookup_lt_Some in Hb. rewrite length_app in Hb.
               simpl in Hb. lia. }
             rewrite lookup_app_l in Ha by lia.
             rewrite Hi, lookup_app_r in Hb by lia.
             rewrite Nat.sub_diag in Hb. injection Hb as <-.
             apply Hp. rewrite last_lookup.
             replace (pred (length acc)) with i by lia. exact Ha.
        * intros l Hl. apply in_app_iff in Hl as [Hl|[<-|[]]]; [auto|].
          apply (in_map fst) in Hin. exact Hin.
        * rewrite length_app in G3. simpl in G3.
          repeat split; auto. lia. }
  destruct (G []) as (G1 & G2 & G3).
  - intros i a b H. discriminate H.
  - intros lead [].
  - repeat split; auto.
Qed.

Lemma inside_iff (px py x0 y0 x1 y1 : Q) :
  inside px py (x0, y0, x1, y1) = true
  <-> (x0 <= px /\ px <= x1 /\ y0 <= py /\ py <= y1)%Q.
Proof.
  unfold inside. rewrite !andb_true_iff, !Qle_bool_iff. tauto.
Qed.

(** The areas of [AOI_COORDINATES] do not overlap. *)
Lemma default_areas_disjoint (px py : Q) (l1 l2 : string) (a1 a2 : Area) :
  In (l1, a1) AOI_COORDINATES -> In (l2, a2) AOI_COORDINATES ->
  inside px py a1 = true -> inside px py a2 = true -> l1 = l2.
Proof.
  intros H1 H2 I1 I2. simpl in H1.
  repeat (destruct H1 as [H1|H1];
    [injection H1 as <- <-; apply inside_iff in I1; simpl in H2;
     repeat (destruct H2 as [H2|H2];
       [injection H2 as <- <-; apply inside_iff in I2;
        first [reflexivity | exfalso; lra]|]);
     contradiction|]).
  contradiction.
Qed.

(** X18. With the default areas, [map_to_aoi] returns a lead exactly when
    the point lies in the area of that lead, bounds included, and nothing
    exactly when it lies in no area: the areas do not overlap, so the order
    of the dict plays no part. *)
Theorem map_to_aoi_default (px py : Q) :
  (forall lead,
     map_to_aoi (AOIMapper None) px py = Some lead
     <-> exists area, In (lead, area) AOI_COORDINATES
                      /\ inside px py area = true)
  /\ (map_to_aoi (AOIMapper None) px py = None
      <-> forall lead area, In (lead, area) AOI_COORDINATES ->
                            inside px py area = false).
Proof.
  split; [|apply map_to_aoi_None].
  intros lead. split; [apply map_to_aoi_Some|].
  intros (area & Hin & Hi). cbn [AOIMapper].
  destruct (map_to_aoi AOI_COORDINATES px py) as [l'|] eqn:E.
  - apply map_to_aoi_Some in E as (area' & Hin' & Hi').
    f_equal. exact (default_areas_disjoint px py l' lead _ _ Hin' Hin Hi' Hi).
  - rewrite map_to_aoi_None in E. rewrite (E _ _ Hin) in Hi. discriminate Hi.
Qed.

(** ** main.py *)

Lemma Inv_stack_short (c : Configuration) : Inv c -> length (stack c) <= 3.
Proof.
  intros HI. destruct c as [st stk h]. shape_cases HI; simpl; lia.
Qed.

(** X19. [analyze_fixations] never finds an examination complete: for
    every list of fixations it returns with [is_complete] false, so the
    completer always runs, and the completed sequence is the inferred task
    sequence followed by at most seven symbols. *)
Theorem analysis_never_complete (self : Main.ECGScanpathAnalyzer)
    (fixations : list Fixation) :
  exists res self',
    Main.analyze_fixations self fixations = Some (res, self')
    /\ Main.is_complete res = false
    /\ Main.task_sequence res = infer_tasks (Main.lead_sequence res)
    /\ (exists suffix,
          Main.completed_sequence res = Main.task_sequence res ++ suffix
          /\ length suffix <= 7)
    /\ length (Main.final_stack res) <= 3
    /\ stack (Main.completer_pda self') = ["Z0"].
Proof.
  unfold Main.analyze_fixations.
  set (leads := convert_fixations_to_lead_sequence (AOIMapper None)
                  fixations MIN_FIXATION_DURATION).
  pose proof (inferred_tasks_rejected
                (reset (Main.analyzer_pda self)) leads) as Hacc.
  assert (HI : Inv (snd (process_sequence (reset (Main.analyzer_pda self))
                           (infer_tasks leads))))
    by apply process_loop_Inv, reset_Inv.
  destruct (process_sequence (reset (Main.analyzer_pda self))
              (infer_tasks leads)) as [accepted pda].
  cbn [snd] in Hacc, HI. rewrite Hacc. cbn [negb].
  destruct (complete_scanpath_appends (Main.completer_pda self)
              (infer_tasks leads)) as (suffix & c' & -> & Hlen & Hstk).
  eexists _, _. split; [reflexivity|]. cbn.
  repeat split; auto.
  - exists suffix. auto.
  - apply Inv_stack_short in HI. exact HI.
Qed.





(** ** The completer never repairs a sequence *)

(** X21. The sequence [complete_scanpath] returns is accepted by
    [validate_completion] exactly when [process_sequence] already accepts
    the partial sequence: a sequence the engine rejects is never completed
    into one it accepts. *)
Theorem completion_validates_iff_accepted
    (c : Configuration) (partial : list string) :
  exists out c',
    complete_scanpath c partial = Some (out, c')
    /\ (fst (validate_completion c' out) = true
        <-> fst (process_sequence c partial) = true)
    /\ (fst (process_sequence c partial) = false ->
        fst (validate_completion c' out) = false).
Proof.
  destruct (complete_scanpath_result c partial) as (out & c' & Hc & Hv & _).
  exists out, c'. split; [exact Hc|]. split; [exact Hv|].
  intros Hp. apply not_true_iff_false. intros Ht.
  apply Hv in Ht. rewrite Hp in Ht. discriminate Ht.
Qed.
